(** * OptiTrade: the pair finder of [OptiTrader/optitrade.py]

    A shallow embedding of the class [OptiTrade] and of its scan
    [find_optimal_pairs], followed by the properties of the scan.

    Conventions of the embedding.
    - The series is a [float64] series with the default index [0 .. N-1], so
      that a label and a position are the same number; [tseries[i]] with
      [i] out of range raises [KeyError].
    - The class is embedded twice, function by function, on two kinds of
      samples.  On exact rationals ([Q]) the samples are real numbers
      compared with [>=] and [>] and combined with [+], [-] and [*]; a
      not-a-number sample and the rounding of an operation are outside that
      model, and it carries the properties of the control flow: bounds of
      the indices, the buffer, the shape of the registry, the primitives'
      characterisations.  On IEEE 754 binary64 numbers (module [Float64])
      the samples are what the code computes with, a NaN sample included;
      that model carries the properties that depend on a comparison with a
      NaN sample or on the value that a profitability test computes
      (module [Float64Facts]).
    - Python exceptions are the [Raise] outcomes of the monad [result].
    - The two nested [while] loops of [find_optimal_pairs] are run by a
      transition function [step] between the two loop heads; [run] iterates
      it a bounded number of times, and [None] is a scan that has not
      returned within them. *)

From Stdlib Require Import QArith ZArith List Lia Lqa Bool Arith.
From Stdlib Require Import Floats.SpecFloat.
From Equations Require Import Equations.
Import ListNotations.

Open Scope Q_scope.

(** ** Exceptions and results *)

Inductive exn : Type := IndexError | KeyError | TypeError | ValueError.

Inductive result (A : Type) : Type :=
| Ok (a : A)
| Raise (e : exn).

Arguments Ok {A} a.
Arguments Raise {A} e.

Definition bind {A B : Type} (m : result A) (k : A -> result B) : result B :=
  match m with
  | Ok a => k a
  | Raise e => Raise e
  end.

Notation "x <- m ;; k" := (bind m (fun x => k))
  (at level 61, m at next level, right associativity).

(** ** Comparisons of samples *)

(** [x >= y] *)
Definition Qge_bool (x y : Q) : bool := Qle_bool y x.

(** [x > y] *)
Definition Qgt_bool (x y : Q) : bool :=
  (Qnum y * QDen x <? Qnum x * QDen y)%Z.

(** ** Sequences *)

(** [tseries[i]] on a series with the default index. *)
Definition getitem (ts : list Q) (i : nat) : result Q :=
  match nth_error ts i with
  | Some v => Ok v
  | None => Raise KeyError
  end.

(** [l[i]] on a Python list. *)
Definition list_get (l : list nat) (i : nat) : result nat :=
  match nth_error l i with
  | Some v => Ok v
  | None => Raise IndexError
  end.

(** [l[0] = v] on a Python list. *)
Definition list_set0 (l : list nat) (v : nat) : result (list nat) :=
  match l with
  | [] => Raise IndexError
  | _ :: r => Ok (v :: r)
  end.

(** [l.pop(1)], the list that is left. *)
Definition list_pop1 (l : list nat) : result (list nat) :=
  match l with
  | x :: _ :: r => Ok (x :: r)
  | _ => Raise IndexError
  end.

(** [tseries[a:b]]; [b = None] is the open slice [tseries[a:]]. *)
Definition slice (ts : list Q) (a : nat) (b : option nat) : list Q :=
  match b with
  | Some b => firstn (b - a) (skipn a ts)
  | None => skipn a ts
  end.

(** [s.where(cond).first_valid_index()] on a slice whose first label is
    [label]: the label of the first sample that satisfies [cond]. *)
Fixpoint first_valid_index (cond : Q -> bool) (l : list Q) (label : nat)
  : option nat :=
  match l with
  | [] => None
  | v :: r => if cond v then Some label else first_valid_index cond r (S label)
  end.

(** The scan of [argmin]: [best] at position [besti] is the smallest sample
    so far, [i] is the position of the head of [l]. *)
Fixpoint argmin_scan (l : list Q) (i : nat) (best : Q) (besti : nat) : nat :=
  match l with
  | [] => besti
  | v :: r =>
      if Qgt_bool best v then argmin_scan r (S i) v i
      else argmin_scan r (S i) best besti
  end.

(** [s.argmin()]: the position of the first occurrence of the minimum. *)
Definition argmin (l : list Q) : result nat :=
  match l with
  | [] => Raise ValueError
  | v :: r => Ok (argmin_scan r 1 v 0)
  end.

(** ** The instance *)

(** The [penalty] argument is not checked by the class: a number or a tuple
    of numbers. *)
Inductive py_penalty : Type :=
| PFloat (p : Q)
| PTuple (ps : list Q).

Record OptiTrade : Type := mkOptiTrade {
  tseries : list Q;
  penalty : py_penalty;
  position : nat;
  tmp : list nat;
  registered_pairs : list (list nat)
}.

Definition set_position (self : OptiTrade) (pos : nat) : OptiTrade :=
  mkOptiTrade (tseries self) (penalty self) pos (tmp self)
    (registered_pairs self).

Definition set_tmp (self : OptiTrade) (t : list nat) : OptiTrade :=
  mkOptiTrade (tseries self) (penalty self) (position self) t
    (registered_pairs self).

Definition set_registered_pairs (self : OptiTrade) (r : list (list nat))
  : OptiTrade :=
  mkOptiTrade (tseries self) (penalty self) (position self) (tmp self) r.

Definition __init__ (tseries : list Q) (penalty : py_penalty)
  : result OptiTrade :=
  Ok (mkOptiTrade tseries penalty 0 [] []).

(** [1 - penalty] and [1 + penalty]: a number minus (plus) a tuple is a
    [TypeError]. *)
Definition one_minus (pen : py_penalty) : result Q :=
  match pen with
  | PFloat p => Ok (1 - p)
  | PTuple _ => Raise TypeError
  end.

Definition one_plus (pen : py_penalty) : result Q :=
  match pen with
  | PFloat p => Ok (1 + p)
  | PTuple _ => Raise TypeError
  end.

(** [penalty * x] with a sample [x]: a tuple is a sequence, and a sequence is
    not repeated a non-integer number of times. *)
Definition penalty_times (pen : py_penalty) (x : Q) : result Q :=
  match pen with
  | PFloat p => Ok (p * x)
  | PTuple _ => Raise TypeError
  end.

(** ** The primitives *)

Definition inspect {A : Type} (a : A) : {b : A | a = b} := exist _ a eq_refl.

(** The loop of [find_smaller], from the cursor [pos]. *)
Equations? find_smaller_from (ts : list Q) (pos : nat) : result nat
  by wf (length ts - pos)%nat lt :=
  find_smaller_from ts pos with inspect (pos + 1 <? length ts)%nat => {
    | exist _ true Hlt =>
        x <- getitem ts pos ;;
        y <- getitem ts (pos + 1) ;;
        if Qge_bool x y then find_smaller_from ts (pos + 1) else Ok pos
    | exist _ false _ => Ok pos }.
Proof. apply Nat.ltb_lt in Hlt. lia. Qed.

Definition find_smaller (self : OptiTrade) (arg : option (list Q))
  : result nat :=
  let ts := match arg with
            | None => tseries self
            | Some ts => ts
            end in
  find_smaller_from ts (position self).

(** [-tseries] *)
Definition neg (ts : list Q) : list Q := map Qopp ts.

Definition net_positive (self : OptiTrade) : result bool :=
  k1 <- one_minus (penalty self) ;;
  i1 <- list_get (tmp self) 1 ;;
  v1 <- getitem (tseries self) i1 ;;
  k0 <- one_plus (penalty self) ;;
  i0 <- list_get (tmp self) 0 ;;
  v0 <- getitem (tseries self) i0 ;;
  Ok (Qgt_bool (k1 * v1 - k0 * v0) 0).

Definition find_next_larger (self : OptiTrade) : result (option nat) :=
  min_val <- getitem (tseries self) (position self) ;;
  Ok (first_valid_index (fun v => Qgt_bool v min_val)
        (slice (tseries self) (position self) None) (position self)).

Definition find_min (self : OptiTrade) (end_pos : option nat) : result nat :=
  i <- argmin (slice (tseries self) (position self) end_pos) ;;
  Ok (i + position self)%nat.

Definition check_profitable (self : OptiTrade) (intermediate : Q)
  : result bool :=
  current <- getitem (tseries self) (position self) ;;
  c <- penalty_times (penalty self) (current + intermediate) ;;
  Ok (Qgt_bool (current - intermediate - c) 0).

(** ** The scan *)

(** [position < len(tseries) - 1], on Python integers. *)
Definition before_last (self : OptiTrade) : bool :=
  (Z.of_nat (position self) <? Z.of_nat (length (tseries self)) - 1)%Z.

(** [registered_pairs.append(tmp); tmp = []] *)
Definition register (self : OptiTrade) : OptiTrade :=
  set_tmp (set_registered_pairs self (registered_pairs self ++ [tmp self])) [].

(** The branch "opting in value can be reduced". *)
Definition reduce_opt_in (self : OptiTrade) : result OptiTrade :=
  pos <- find_smaller self None ;;
  let self := set_position self pos in
  t <- list_set0 (tmp self) (position self) ;;
  t <- list_pop1 t ;;
  Ok (set_tmp self t).

(** The branch "move to next larger value". *)
Definition move_to_next_larger (self : OptiTrade) (next_larger_id : nat)
  : result OptiTrade :=
  let self := set_position self next_larger_id in
  t <- list_pop1 (tmp self) ;;
  Ok (set_tmp self t).

(** How an iteration of the inner loop ends. *)
Inductive flow : Type := Continue | Break.

(** The body of the outer loop up to the inner loop. *)
Definition outer_body (self : OptiTrade) : result OptiTrade :=
  opt_in <- find_smaller self None ;;
  let self := set_position self opt_in in
  Ok (set_tmp self (tmp self ++ [opt_in])).

(** The body of the inner loop. *)
Definition inner_body (self : OptiTrade) : result (flow * OptiTrade) :=
  decision_point <- find_smaller self (Some (neg (tseries self))) ;;
  let self := set_position self decision_point in
  let self := set_tmp self (tmp self ++ [decision_point]) in
  next_larger_id <- find_next_larger self ;;
  match next_larger_id with
  | None =>
      np <- net_positive self ;;
      if np then Ok (Break, register self)
      else Ok (Break, set_tmp self [])
  | Some next_larger =>
      intermediate_point <- find_min self (Some next_larger) ;;
      v <- getitem (tseries self) intermediate_point ;;
      profitable <- check_profitable self v ;;
      if profitable then
        np <- net_positive self ;;
        if np then Ok (Break, register self)
        else (self <- reduce_opt_in self ;; Ok (Continue, self))
      else (self <- move_to_next_larger self next_larger ;;
            Ok (Continue, self))
  end.

(** The points of control of [find_optimal_pairs]: the head of the outer
    loop, the head of the inner loop, and the return. *)
Inductive point : Type := OuterHead | InnerHead | Return.

Definition config : Type := (point * OptiTrade)%type.

(** One transition: the test of a loop and, when it holds, the body up to
    the next loop head.  Leaving the inner loop, by [break] or by its test,
    leads back to the test of the outer loop. *)
Definition step (c : config) : result config :=
  let (pt, self) := c in
  match pt with
  | OuterHead =>
      if before_last self then
        self <- outer_body self ;; Ok (InnerHead, self)
      else Ok (Return, self)
  | InnerHead =>
      if before_last self then
        r <- inner_body self ;;
        match r with
        | (Continue, self) => Ok (InnerHead, self)
        | (Break, self) => Ok (OuterHead, self)
        end
      else Ok (OuterHead, self)
  | Return => Ok (Return, self)
  end.

(** At most [fuel] transitions; [None] when the return is not reached. *)
Fixpoint run (fuel : nat) (c : config) : option (result OptiTrade) :=
  match c with
  | (Return, self) => Some (Ok self)
  | _ =>
      match fuel with
      | O => None
      | S fuel =>
          match step c with
          | Ok c' => run fuel c'
          | Raise e => Some (Raise e)
          end
      end
  end.

Definition find_optimal_pairs (fuel : nat) (self : OptiTrade)
  : option (result OptiTrade) :=
  run fuel (OuterHead, self).

(** A scan of a fresh instance with a scalar penalty. *)
Definition scan (fuel : nat) (ts : list Q) (p : Q)
  : option (result OptiTrade) :=
  match __init__ ts (PFloat p) with
  | Ok self => find_optimal_pairs fuel self
  | Raise e => Some (Raise e)
  end.

Definition scenario_A : list Q :=
  [5.94; 5.89; 5.97; 6.0; 5.98; 6.07; 5.88; 5.98; 5.9].

(** ** The demonstration script *)




(** * The vocabulary of the properties *)

(** The sample after position [i] is above (below) the sample at [i]. *)
Definition rises (ts : list Q) (i : nat) : Prop :=
  exists x y, nth_error ts i = Some x /\ nth_error ts (S i) = Some y /\ x < y.

Definition falls (ts : list Q) (i : nat) : Prop :=
  exists x y, nth_error ts i = Some x /\ nth_error ts (S i) = Some y /\ y < x.

(** The pairs of [rp] come one after the other between [lo] and [hi]. *)
Fixpoint chain (lo : nat) (rp : list (list nat)) (hi : nat) : Prop :=
  match rp with
  | [] => (lo <= hi)%nat
  | pr :: r => exists a b, pr = [a; b] /\ (lo <= a)%nat /\ (a < b)%nat /\ chain b r hi
  end.

(** [pairs[i][1] <= pairs[i+1][0]] for consecutive pairs. *)
Definition non_overlapping (rp : list (list nat)) : Prop :=
  forall i pr1 pr2,
    nth_error rp i = Some pr1 -> nth_error rp (S i) = Some pr2 ->
    (nth 1 pr1 0 <= nth 0 pr2 0)%nat.

Section Invariant.

(** The series and the scalar penalty of the instance. *)
Variable ts : list Q.
Variable p : Q.

(** [(1 - p) * series[b] - (1 + p) * series[a] > 0] *)
Definition net_gain (a b : nat) : Prop :=
  exists va vb,
    nth_error ts a = Some va /\ nth_error ts b = Some vb /\
    0 < (1 - p) * vb - (1 + p) * va.

(** A registered entry is a pair of positions [[a; b]] of the series with
    [a] before [b] and a positive net gain. *)
Definition pair_good (pr : list nat) : Prop :=
  exists a b, pr = [a; b] /\ (a < b)%nat /\ net_gain a b.

(** The cursor is a position of the series (or [0] on the empty series). *)
Definition cursor_ok (self : OptiTrade) : Prop :=
  (position self < length ts)%nat \/ position self = 0%nat.

(** The invariant of the scan, at each point of control. *)
Definition inv (c : config) : Prop :=
  let (pt, self) := c in
  tseries self = ts /\ penalty self = PFloat p /\
  Forall pair_good (registered_pairs self) /\
  match pt with
  | OuterHead =>
      chain 0 (registered_pairs self) (position self) /\
      cursor_ok self /\
      (tmp self = [] \/ (before_last self = false /\ exists a, tmp self = [a]))
  | InnerHead =>
      (position self < length ts)%nat /\
      exists a,
        tmp self = [a] /\ chain 0 (registered_pairs self) a /\
        ((a < position self)%nat \/
         (a = position self /\
          ((position self + 1 < length ts)%nat -> rises ts a)))
  | Return =>
      chain 0 (registered_pairs self) (position self) /\
      cursor_ok self /\ (length (tmp self) <= 1)%nat
  end.

End Invariant.

(** Whether [find_smaller] leaves the cursor where it is. *)
Definition stays (self : OptiTrade) : bool :=
  match find_smaller self None with
  | Ok r => (r =? position self)%nat
  | Raise _ => false
  end.

(** The number of transitions that are left, at most. *)
Definition measure (c : config) : nat :=
  let (pt, self) := c in
  let d := (3 * (length (tseries self) - position self))%nat in
  match pt with
  | OuterHead => (1 + d + if before_last self && stays self then 2 else 0)%nat
  | InnerHead => (2 + d)%nat
  | Return => 0%nat
  end.


(** The configurations that a scan goes through. *)
Inductive reaches (c : config) : config -> Prop :=
| reaches_here : reaches c c
| reaches_next (c1 c2 : config) :
    reaches c c1 -> step c1 = Ok c2 -> reaches c c2.

(** The number of transitions that is enough for a series. *)
Definition enough (ts : list Q) : nat := 3 * length ts + 3.

(** The sample at [i] is at most (is below) the sample at [j]. *)
Definition le_at (ts : list Q) (i j : nat) : Prop :=
  exists x y, nth_error ts i = Some x /\ nth_error ts j = Some y /\ x <= y.

Definition lt_at (ts : list Q) (i j : nat) : Prop :=
  exists x y, nth_error ts i = Some x /\ nth_error ts j = Some y /\ x < y.



Section LocalExtrema.

(** The series of the instance. *)
Variable ts : list Q.






End LocalExtrema.


(** * The pair finder on binary64 samples

    The class again, with the samples as the code has them: IEEE 754
    binary64 numbers (a [float64] series), with not-a-number samples and
    with the rounding of every operation.  [spec_float] is the Standard
    Library's specification of these numbers and of their operations; the
    binary64 values are its valid elements at precision 53, and what is
    proved below for every [spec_float] holds for them.  The properties that
    depend on a comparison with a NaN sample or on the value of a
    profitability test are stated on this module. *)

Module Float64.

(** ** binary64 *)

Definition prec : Z := 53%Z.
Definition emax : Z := 1024%Z.

Definition float : Type := spec_float.

(** The integer [z] as a float. *)
Definition of_Z (z : Z) : float := binary_normalize prec emax z 0%Z false.

(** The decimal literal [n / d], rounded to the nearest float: [n] and [d]
    below [2 ^ 53] are floats themselves, and their quotient is rounded
    once. *)
Definition dec (n : Z) (d : positive) : float :=
  SFdiv prec emax (of_Z n) (of_Z (Zpos d)).

Definition zero : float := of_Z 0.
Definition one : float := of_Z 1.
Definition nan : float := S754_nan.
Definition infinity : float := S754_infinity false.

Definition add (x y : float) : float := SFadd prec emax x y.
Definition sub (x y : float) : float := SFsub prec emax x y.
Definition mul (x y : float) : float := SFmul prec emax x y.
Definition opp (x : float) : float := SFopp x.

(** [x >= y] and [x > y]; both are [False] when [x] or [y] is NaN. *)
Definition ge (x y : float) : bool := SFleb y x.
Definition gt (x y : float) : bool := SFltb y x.

Definition is_nan (x : float) : bool :=
  match x with
  | S754_nan => true
  | _ => false
  end.

(** ** Sequences *)

(** [tseries[i]] on a series with the default index. *)
Definition getitem (ts : list float) (i : nat) : result float :=
  match nth_error ts i with
  | Some v => Ok v
  | None => Raise KeyError
  end.

(** [tseries[a:b]]; [b = None] is the open slice [tseries[a:]]. *)
Definition slice (ts : list float) (a : nat) (b : option nat) : list float :=
  match b with
  | Some b => firstn (b - a) (skipn a ts)
  | None => skipn a ts
  end.

(** [s.where(cond).first_valid_index()] on a slice whose first label is
    [label]: the samples that fail [cond] become NaN, and the first sample
    that is not NaN is one that satisfies [cond]. *)
Fixpoint first_valid_index (cond : float -> bool) (l : list float)
  (label : nat) : option nat :=
  match l with
  | [] => None
  | v :: r => if cond v then Some label else first_valid_index cond r (S label)
  end.

(** [argmin] skips the NaN samples: it compares the samples with every NaN
    replaced by plus infinity. *)
Definition fill_nan (v : float) : float := if is_nan v then infinity else v.

(** The scan of [argmin]: [best] at position [besti] is the smallest sample
    so far, [i] is the position of the head of [l]. *)
Fixpoint argmin_scan (l : list float) (i : nat) (best : float) (besti : nat)
  : nat :=
  match l with
  | [] => besti
  | v :: r =>
      if gt best (fill_nan v) then argmin_scan r (S i) (fill_nan v) i
      else argmin_scan r (S i) best besti
  end.

(** [s.argmin()]: the position of the first occurrence of the minimum.  On
    a slice of NaN samples only, the result depends on the version of the
    library (an error, or -1 with a warning); it is the error here, and the
    scan never asks for it: the slice it passes starts with a number
    ([Float64Facts.find_min_in], [Float64Facts.inner_body_outcomes]). *)
Definition argmin (l : list float) : result nat :=
  match l with
  | [] => Raise ValueError
  | v :: r =>
      if forallb is_nan l then Raise ValueError
      else Ok (argmin_scan r 1 (fill_nan v) 0)
  end.

(** ** The instance *)

Inductive py_penalty : Type :=
| PFloat (p : float)
| PTuple (ps : list float).

Record OptiTrade : Type := mkOptiTrade {
  tseries : list float;
  penalty : py_penalty;
  position : nat;
  tmp : list nat;
  registered_pairs : list (list nat)
}.

Definition set_position (self : OptiTrade) (pos : nat) : OptiTrade :=
  mkOptiTrade (tseries self) (penalty self) pos (tmp self)
    (registered_pairs self).

Definition set_tmp (self : OptiTrade) (t : list nat) : OptiTrade :=
  mkOptiTrade (tseries self) (penalty self) (position self) t
    (registered_pairs self).

Definition set_registered_pairs (self : OptiTrade) (r : list (list nat))
  : OptiTrade :=
  mkOptiTrade (tseries self) (penalty self) (position self) (tmp self) r.

Definition __init__ (tseries : list float) (penalty : py_penalty)
  : result OptiTrade :=
  Ok (mkOptiTrade tseries penalty 0 [] []).

(** [1 - penalty] and [1 + penalty]: a number minus (plus) a tuple is a
    [TypeError]. *)
Definition one_minus (pen : py_penalty) : result float :=
  match pen with
  | PFloat p => Ok (sub one p)
  | PTuple _ => Raise TypeError
  end.

Definition one_plus (pen : py_penalty) : result float :=
  match pen with
  | PFloat p => Ok (add one p)
  | PTuple _ => Raise TypeError
  end.

(** [penalty * x] with a sample [x] of a [float64] series: a tuple is a
    sequence, and a sequence is not repeated a non-integer number of
    times. *)
Definition penalty_times (pen : py_penalty) (x : float) : result float :=
  match pen with
  | PFloat p => Ok (mul p x)
  | PTuple _ => Raise TypeError
  end.

(** ** The primitives *)

(** The loop of [find_smaller], from the cursor [pos]. *)
Equations? find_smaller_from (ts : list float) (pos : nat) : result nat
  by wf (length ts - pos)%nat lt :=
  find_smaller_from ts pos with inspect (pos + 1 <? length ts)%nat => {
    | exist _ true Hlt =>
        x <- getitem ts pos ;;
        y <- getitem ts (pos + 1) ;;
        if ge x y then find_smaller_from ts (pos + 1) else Ok pos
    | exist _ false _ => Ok pos }.
Proof. apply Nat.ltb_lt in Hlt. lia. Qed.

Definition find_smaller (self : OptiTrade) (arg : option (list float))
  : result nat :=
  let ts := match arg with
            | None => tseries self
            | Some ts => ts
            end in
  find_smaller_from ts (position self).

(** [-tseries] *)
Definition neg (ts : list float) : list float := map opp ts.

Definition net_positive (self : OptiTrade) : result bool :=
  k1 <- one_minus (penalty self) ;;
  i1 <- list_get (tmp self) 1 ;;
  v1 <- getitem (tseries self) i1 ;;
  k0 <- one_plus (penalty self) ;;
  i0 <- list_get (tmp self) 0 ;;
  v0 <- getitem (tseries self) i0 ;;
  Ok (gt (sub (mul k1 v1) (mul k0 v0)) zero).

Definition find_next_larger (self : OptiTrade) : result (option nat) :=
  min_val <- getitem (tseries self) (position self) ;;
  Ok (first_valid_index (fun v => gt v min_val)
        (slice (tseries self) (position self) None) (position self)).

Definition find_min (self : OptiTrade) (end_pos : option nat) : result nat :=
  i <- argmin (slice (tseries self) (position self) end_pos) ;;
  Ok (i + position self)%nat.

Definition check_profitable (self : OptiTrade) (intermediate : float)
  : result bool :=
  current <- getitem (tseries self) (position self) ;;
  c <- penalty_times (penalty self) (add current intermediate) ;;
  Ok (gt (sub (sub current intermediate) c) zero).

(** ** The scan *)

(** [position < len(tseries) - 1], on Python integers. *)
Definition before_last (self : OptiTrade) : bool :=
  (Z.of_nat (position self) <? Z.of_nat (length (tseries self)) - 1)%Z.

(** [registered_pairs.append(tmp); tmp = []] *)
Definition register (self : OptiTrade) : OptiTrade :=
  set_tmp (set_registered_pairs self (registered_pairs self ++ [tmp self])) [].

(** The branch "opting in value can be reduced". *)
Definition reduce_opt_in (self : OptiTrade) : result OptiTrade :=
  pos <- find_smaller self None ;;
  let self := set_position self pos in
  t <- list_set0 (tmp self) (position self) ;;
  t <- list_pop1 t ;;
  Ok (set_tmp self t).

(** The branch "move to next larger value". *)
Definition move_to_next_larger (self : OptiTrade) (next_larger_id : nat)
  : result OptiTrade :=
  let self := set_position self next_larger_id in
  t <- list_pop1 (tmp self) ;;
  Ok (set_tmp self t).

(** The body of the outer loop up to the inner loop. *)
Definition outer_body (self : OptiTrade) : result OptiTrade :=
  opt_in <- find_smaller self None ;;
  let self := set_position self opt_in in
  Ok (set_tmp self (tmp self ++ [opt_in])).

(** The body of the inner loop. *)
Definition inner_body (self : OptiTrade) : result (flow * OptiTrade) :=
  decision_point <- find_smaller self (Some (neg (tseries self))) ;;
  let self := set_position self decision_point in
  let self := set_tmp self (tmp self ++ [decision_point]) in
  next_larger_id <- find_next_larger self ;;
  match next_larger_id with
  | None =>
      np <- net_positive self ;;
      if np then Ok (Break, register self)
      else Ok (Break, set_tmp self [])
  | Some next_larger =>
      intermediate_point <- find_min self (Some next_larger) ;;
      v <- getitem (tseries self) intermediate_point ;;
      profitable <- check_profitable self v ;;
      if profitable then
        np <- net_positive self ;;
        if np then Ok (Break, register self)
        else (self <- reduce_opt_in self ;; Ok (Continue, self))
      else (self <- move_to_next_larger self next_larger ;;
            Ok (Continue, self))
  end.

Definition config : Type := (point * OptiTrade)%type.

(** One transition between the points of control, as in [step] above. *)
Definition step (c : config) : result config :=
  let (pt, self) := c in
  match pt with
  | OuterHead =>
      if before_last self then
        self <- outer_body self ;; Ok (InnerHead, self)
      else Ok (Return, self)
  | InnerHead =>
      if before_last self then
        r <- inner_body self ;;
        match r with
        | (Continue, self) => Ok (InnerHead, self)
        | (Break, self) => Ok (OuterHead, self)
        end
      else Ok (OuterHead, self)
  | Return => Ok (Return, self)
  end.

(** At most [fuel] transitions; [None] when the return is not reached. *)
Fixpoint run (fuel : nat) (c : config) : option (result OptiTrade) :=
  match c with
  | (Return, self) => Some (Ok self)
  | _ =>
      match fuel with
      | O => None
      | S fuel =>
          match step c with
          | Ok c' => run fuel c'
          | Raise e => Some (Raise e)
          end
      end
  end.

Definition find_optimal_pairs (fuel : nat) (self : OptiTrade)
  : option (result OptiTrade) :=
  run fuel (OuterHead, self).

(** A scan of a fresh instance with a scalar penalty. *)
Definition scan (fuel : nat) (ts : list float) (p : float)
  : option (result OptiTrade) :=
  match __init__ ts (PFloat p) with
  | Ok self => find_optimal_pairs fuel self
  | Raise e => Some (Raise e)
  end.

(** The fresh instance of a scan, at the head of the outer loop. *)
Definition start (ts : list float) (p : float) : config :=
  (OuterHead, mkOptiTrade ts (PFloat p) 0 [] []).

(** ** The vocabulary of the properties *)

(** No sample of the series is NaN. *)
Definition no_nan (ts : list float) : Prop :=
  Forall (fun v => is_nan v = false) ts.

(** The sample after position [i] is above (below) the sample at [i]. *)
Definition rises (ts : list float) (i : nat) : Prop :=
  exists x y,
    nth_error ts i = Some x /\ nth_error ts (S i) = Some y /\ gt y x = true.

Definition falls (ts : list float) (i : nat) : Prop :=
  exists x y,
    nth_error ts i = Some x /\ nth_error ts (S i) = Some y /\ gt x y = true.

(** The test of [find_smaller] fails at position [i]. *)
Definition stops (ts : list float) (i : nat) : Prop :=
  exists x y,
    nth_error ts i = Some x /\ nth_error ts (S i) = Some y /\ ge x y = false.

(** Every sample is above the one before. *)
Definition strictly_increasing (ts : list float) : Prop :=
  forall i, (S i < length ts)%nat -> rises ts i.

(** The test [(1 - p) * y - (1 + p) * x > 0] as the code evaluates it. *)
Definition gain_test (p x y : float) : bool :=
  gt (sub (mul (sub one p) y) (mul (add one p) x)) zero.

(** [(1 - p) * series[b] - (1 + p) * series[a] > 0] holds when the code
    evaluates it. *)
Definition net_gain (ts : list float) (p : float) (a b : nat) : Prop :=
  exists va vb,
    nth_error ts a = Some va /\ nth_error ts b = Some vb /\
    gain_test p va vb = true.

(** The real number that a float stands for; none for an infinity and for
    NaN. *)
Definition to_Q (x : float) : option Q :=
  match x with
  | S754_zero _ => Some 0
  | S754_finite s m e =>
      Some ((if s then - inject_Z (Zpos m) else inject_Z (Zpos m)) * 2 ^ e)
  | S754_infinity _ | S754_nan => None
  end.

(** [(1 - p) * y - (1 + p) * x] on the real numbers that [p], [x] and [y]
    stand for, without any rounding. *)
Definition exact_gain (p x y : float) : option Q :=
  match to_Q p, to_Q x, to_Q y with
  | Some p, Some x, Some y => Some ((1 - p) * y - (1 + p) * x)
  | _, _, _ => None
  end.

(** The configurations that a scan goes through. *)
Inductive reaches (c : config) : config -> Prop :=
| reaches_here : reaches c c
| reaches_next (c1 c2 : config) :
    reaches c c1 -> step c1 = Ok c2 -> reaches c c2.

(** The number of transitions that is enough for a series without NaN. *)
Definition enough (ts : list float) : nat := 3 * length ts + 3.

Section Invariant.

(** The series and the scalar penalty of the instance. *)
Variable ts : list float.
Variable p : float.

(** A registered entry is a pair of positions [[a; b]] of the series, [a]
    not after [b], that passes the test. *)
Definition pair_ok (pr : list nat) : Prop :=
  exists a b, pr = [a; b] /\ (a <= b)%nat /\ net_gain ts p a b.

(** The cursor is a position of the series (or [0] on the empty series). *)
Definition cursor_ok (self : OptiTrade) : Prop :=
  (position self < length ts)%nat \/ position self = 0%nat.

(** What the scan keeps on every series, at each point of control. *)
Definition inv (c : config) : Prop :=
  let (pt, self) := c in
  tseries self = ts /\ penalty self = PFloat p /\
  Forall pair_ok (registered_pairs self) /\
  match pt with
  | OuterHead =>
      cursor_ok self /\
      (tmp self = [] \/ (before_last self = false /\ exists a, tmp self = [a]))
  | InnerHead =>
      (position self < length ts)%nat /\
      exists a, tmp self = [a] /\ (a <= position self)%nat
  | Return => cursor_ok self /\ (length (tmp self) <= 1)%nat
  end.

(** What it keeps besides on a series without NaN. *)
Definition inv_order (c : config) : Prop :=
  let (pt, self) := c in
  match pt with
  | OuterHead => chain 0 (registered_pairs self) (position self)
  | InnerHead =>
      exists a,
        tmp self = [a] /\ chain 0 (registered_pairs self) a /\
        ((a < position self)%nat \/
         (a = position self /\
          ((position self + 1 < length ts)%nat -> rises ts a)))
  | Return => chain 0 (registered_pairs self) (position self)
  end.

End Invariant.

(** Whether [find_smaller] leaves the cursor where it is. *)
Definition stays (self : OptiTrade) : bool :=
  match find_smaller self None with
  | Ok r => (r =? position self)%nat
  | Raise _ => false
  end.

(** The number of transitions that are left, at most, on a series without
    NaN. *)
Definition measure (c : config) : nat :=
  let (pt, self) := c in
  let d := (3 * (length (tseries self) - position self))%nat in
  match pt with
  | OuterHead => (1 + d + if before_last self && stays self then 2 else 0)%nat
  | InnerHead => (2 + d)%nat
  | Return => 0%nat
  end.

End Float64.

(** * Properties *)

(** ** Comparisons *)

Lemma Qgt_bool_iff (x y : Q) : Qgt_bool x y = true <-> y < x.
Proof. unfold Qgt_bool, Qlt. apply Z.ltb_lt. Qed.

Lemma Qgt_bool_false (x y : Q) : Qgt_bool x y = false <-> x <= y.
Proof. unfold Qgt_bool, Qle. apply Z.ltb_ge. Qed.


Lemma Qge_bool_false (x y : Q) : Qge_bool x y = false <-> x < y.
Proof.
  unfold Qge_bool. split; intros H.
  - apply Qnot_le_lt. intros Hle. apply Qle_bool_iff in Hle. congruence.
  - destruct (Qle_bool y x) eqn:E; [|reflexivity].
    apply Qle_bool_iff in E. exfalso. exact (Qlt_not_le _ _ H E).
Qed.

(** ** Sequences *)

Lemma getitem_Ok (ts : list Q) (i : nat) (v : Q) :
  getitem ts i = Ok v <-> nth_error ts i = Some v.
Proof.
  unfold getitem. destruct (nth_error ts i); split; intros H;
    try discriminate; congruence.
Qed.

Lemma getitem_lt (ts : list Q) (i : nat) :
  (i < length ts)%nat -> exists v, getitem ts i = Ok v /\ nth_error ts i = Some v.
Proof.
  intros H. unfold getitem. destruct (nth_error ts i) eqn:E.
  - eauto.
  - apply nth_error_None in E. lia.
Qed.



Lemma nth_error_skipn_add (ts : list Q) (a j : nat) :
  nth_error (skipn a ts) j = nth_error ts (a + j).
Proof.
  revert ts. induction a as [|a IH]; intros ts; [reflexivity|].
  destruct ts as [|v ts]; [now destruct j|]. simpl. apply IH.
Qed.

(** The first valid index, when there is one, is the label of a sample of
    the slice that satisfies the condition. *)
Lemma first_valid_index_Some (cond : Q -> bool) (l : list Q) (label k : nat) :
  first_valid_index cond l label = Some k ->
  (label <= k)%nat /\
  exists v, nth_error l (k - label) = Some v /\ cond v = true.
Proof.
  revert label. induction l as [|v r IH]; intros label H; [discriminate|].
  simpl in H. destruct (cond v) eqn:E.
  - injection H as <-. split; [lia|]. rewrite Nat.sub_diag. simpl. eauto.
  - apply IH in H. destruct H as [Hle [w [Hw Hc]]]. split; [lia|].
    exists w. split; [|exact Hc].
    replace (k - label)%nat with (S (k - S label)) by lia. exact Hw.
Qed.

Lemma first_valid_index_None (cond : Q -> bool) (l : list Q) (label : nat) :
  (forall v, In v l -> cond v = false) ->
  first_valid_index cond l label = None.
Proof.
  revert label. induction l as [|v r IH]; intros label H; [reflexivity|].
  simpl. rewrite (H v (or_introl eq_refl)). apply IH.
  intros w Hw. apply H. now right.
Qed.



(** ** [find_smaller] *)

Lemma find_smaller_from_eq (ts : list Q) (pos : nat) :
  find_smaller_from ts pos =
  if (pos + 1 <? length ts)%nat then
    x <- getitem ts pos ;;
    y <- getitem ts (pos + 1) ;;
    if Qge_bool x y then find_smaller_from ts (pos + 1) else Ok pos
  else Ok pos.
Proof.
  funelim (find_smaller_from ts pos).
  - rewrite Hlt. reflexivity.
  - rewrite e. reflexivity.
Qed.



(** [find_smaller] never raises and never moves backward; it stays inside
    the series, it stops below a rise, and it leaves a position whose next
    sample is not above. *)
Lemma find_smaller_from_spec (ts : list Q) (pos : nat) :
  exists r,
    find_smaller_from ts pos = Ok r /\
    (pos <= r)%nat /\
    ((pos < length ts)%nat -> (r < length ts)%nat) /\
    ((r + 1 < length ts)%nat -> rises ts r) /\
    (r = pos -> (pos + 1 < length ts)%nat -> rises ts pos).
Proof.
  remember (length ts - pos)%nat as n eqn:Hn. revert pos Hn.
  induction n as [n IH] using lt_wf_ind. intros pos Hn.
  rewrite find_smaller_from_eq.
  destruct (pos + 1 <? length ts)%nat eqn:Hlt.
  - apply Nat.ltb_lt in Hlt.
    destruct (getitem_lt ts pos) as [x [-> Hx]]; [lia|].
    destruct (getitem_lt ts (pos + 1)) as [y [-> Hy]]; [lia|].
    simpl. destruct (Qge_bool x y) eqn:Hge.
    + destruct (IH (length ts - (pos + 1))%nat ltac:(lia) (pos + 1)%nat eq_refl)
        as [r [Hr [Hle [Hin [Hrise _]]]]].
      exists r. repeat split; try assumption; try lia.
    + apply Qge_bool_false in Hge.
      assert (Hp : rises ts pos).
      { exists x, y. replace (S pos) with (pos + 1)%nat by lia. auto. }
      exists pos. repeat split; auto.
  - apply Nat.ltb_ge in Hlt. exists pos. repeat split; auto; lia.
Qed.


(** ** The other primitives, on a scalar penalty *)





(** ** The registry *)

Lemma chain_weaken (rp : list (list nat)) (lo hi hi' : nat) :
  chain lo rp hi -> (hi <= hi')%nat -> chain lo rp hi'.
Proof.
  revert lo. induction rp as [|pr r IH]; intros lo H Hle; simpl in *.
  - lia.
  - destruct H as [a [b [E [H1 [H2 H3]]]]]. exists a, b. eauto.
Qed.

Lemma chain_snoc (rp : list (list nat)) (lo mid a b hi : nat) :
  chain lo rp mid -> (mid <= a)%nat -> (a < b)%nat -> (b <= hi)%nat ->
  chain lo (rp ++ [[a; b]]) hi.
Proof.
  revert lo. induction rp as [|pr r IH]; intros lo H H1 H2 H3; simpl in *.
  - exists a, b. repeat split; auto; lia.
  - destruct H as [a' [b' [E [G1 [G2 G3]]]]]. exists a', b'. eauto.
Qed.

Lemma chain_non_overlapping (rp : list (list nat)) (lo hi : nat) :
  chain lo rp hi -> non_overlapping rp.
Proof.
  revert lo. induction rp as [|pr r IH]; intros lo H i pr1 pr2 H1 H2.
  - now destruct i.
  - simpl in H. destruct H as [a [b [E [G1 [G2 G3]]]]].
    destruct i as [|i].
    + simpl in H1, H2. injection H1 as <-. subst pr.
      destruct r as [|pr' r']; [discriminate|]. injection H2 as <-.
      simpl in G3. destruct G3 as [a' [b' [-> [G _]]]]. exact G.
    + exact (IH b G3 i pr1 pr2 H1 H2).
Qed.

Lemma point_eq_Return (pt : point) : pt = Return \/ pt <> Return.
Proof. destruct pt; auto; right; discriminate. Qed.

Lemma OuterHead_not_Return : OuterHead <> Return.
Proof. discriminate. Qed.

Lemma InnerHead_not_Return : InnerHead <> Return.
Proof. discriminate. Qed.

(** ** The loop tests and the bounded run *)





(** ** The invariant of the scan *)

Section Scan.

(** The series and the scalar penalty of the instance. *)
Variable ts : list Q.
Variable p : Q.







End Scan.

(** More transitions do not change what a run returns. *)
Lemma run_more (fuel fuel' : nat) (c : config) (r : result OptiTrade) :
  run fuel c = Some r -> (fuel <= fuel')%nat -> run fuel' c = Some r.
Proof.
  revert fuel' c. induction fuel as [|fuel IH]; intros fuel' c H Hle.
  - destruct c as [[| |] self]; simpl in H; try discriminate.
    destruct fuel'; exact H.
  - destruct fuel' as [|fuel']; [lia|].
    destruct c as [[| |] self]; cbn [run] in *; try exact H;
      (destruct (step _) as [c'|e]; [apply IH; [exact H|lia] | exact H]).
Qed.





(** * The properties of the pair finder *)

(** C7. A series of length 0 or 1: the test of the outer loop fails at
    once, the scan returns the fresh instance, with no registered pair, and
    nothing is raised. *)
Theorem short_series_empty_result (ts : list Q) (p : Q) (fuel : nat) :
  (length ts <= 1)%nat ->
  step (OuterHead, mkOptiTrade ts (PFloat p) 0 [] [])
  = Ok (Return, mkOptiTrade ts (PFloat p) 0 [] []) /\
  exists self',
    scan (S fuel) ts p = Some (Ok self') /\
    registered_pairs self' = [] /\ position self' = 0%nat.
Proof.
  intros Hlen.
  assert (Hbl : before_last (mkOptiTrade ts (PFloat p) 0 [] []) = false).
  { unfold before_last. simpl. apply Z.ltb_ge. lia. }
  assert (Hs : step (OuterHead, mkOptiTrade ts (PFloat p) 0 [] [])
               = Ok (Return, mkOptiTrade ts (PFloat p) 0 [] [])).
  { cbn [step]. rewrite Hbl. reflexivity. }
  split; [exact Hs|].
  exists (mkOptiTrade ts (PFloat p) 0 [] []). split; [|split; reflexivity].
  unfold scan, __init__, find_optimal_pairs. cbn [run]. rewrite Hs.
  destruct fuel; reflexivity.
Qed.

Lemma short_series_empty_result_witness :
  step (OuterHead, mkOptiTrade [5.94] (PFloat 0.0025) 0 [] [])
  = Ok (Return, mkOptiTrade [5.94] (PFloat 0.0025) 0 [] []) /\
  exists self',
    scan 1 [5.94] 0.0025 = Some (Ok self') /\
    registered_pairs self' = [] /\ position self' = 0%nat.
Proof.
  apply (short_series_empty_result [5.94] 0.0025 0). simpl. lia.
Defined.





Lemma find_smaller_from_stays (ts : list Q) (pos : nat) :
  rises ts pos -> find_smaller_from ts pos = Ok pos.
Proof.
  intros [x [y [Hx [Hy Hlt]]]]. rewrite find_smaller_from_eq.
  assert (Hin : (S pos < length ts)%nat) by (apply nth_error_Some; congruence).
  replace (pos + 1 <? length ts)%nat with true
    by (symmetry; apply Nat.ltb_lt; lia).
  unfold getitem. rewrite Hx. replace (pos + 1)%nat with (S pos) by lia.
  rewrite Hy. simpl. apply Qge_bool_false in Hlt. rewrite Hlt. reflexivity.
Qed.

(** C6. Scenario A: on the series
    [5.94, 5.89, 5.97, 6.0, 5.98, 6.07, 5.88, 5.98, 5.9] with penalty
    [0.0025] the scan registers the pair of the dip at index 1 (5.89) and
    the peak at index 5 (6.07), and
    [(1 - 0.0025) * 6.07 - (1 + 0.0025) * 5.89 > 0]. *)
Theorem scenario_A_registers_1_5 :
  exists self',
    scan (enough scenario_A) scenario_A 0.0025 = Some (Ok self') /\
    registered_pairs self' = [[1; 5]; [6; 7]]%nat /\
    In [1; 5]%nat (registered_pairs self') /\
    nth_error scenario_A 1 = Some 5.89 /\
    nth_error scenario_A 5 = Some 6.07 /\
    0 < (1 - 0.0025) * 6.07 - (1 + 0.0025) * 5.89.
Proof.
  eexists. split; [vm_compute; reflexivity|].
  split; [reflexivity|]. split; [left; reflexivity|].
  repeat split.
Qed.

(** C5 does not hold as stated: the construction with a penalty of three
    elements raises nothing. *)
Lemma init_malformed_penalty_accepted :
  __init__ [1; 2] (PTuple [0.1; 0.2; 0.3])
  = Ok (mkOptiTrade [1; 2] (PTuple [0.1; 0.2; 0.3]) 0 [] []) /\
  ~ (exists e, __init__ [1; 2] (PTuple [0.1; 0.2; 0.3]) = Raise e).
Proof. split; [reflexivity|]. intros [e H]. discriminate H. Qed.

(** C5, amended. The construction never raises: whatever the penalty is, it
    is stored as given, with the cursor at 0, an empty buffer and an empty
    registry. *)
Theorem init_never_raises (ts : list Q) (pen : py_penalty) :
  exists self,
    __init__ ts pen = Ok self /\
    tseries self = ts /\ penalty self = pen /\ position self = 0%nat /\
    tmp self = [] /\ registered_pairs self = [].
Proof. eexists. split; [reflexivity|]. repeat split. Qed.

(** * Further properties of the primitives *)











(** X3. [find_smaller] is idempotent: searching again from the position it
    returned, on the same series, returns that position. *)
Theorem find_smaller_idempotent (self : OptiTrade) (arg : option (list Q))
  (r : nat) :
  find_smaller self arg = Ok r ->
  find_smaller (set_position self r) arg = Ok r.
Proof.
  unfold find_smaller. cbn [tseries position set_position].
  set (ts := match arg with None => tseries self | Some ts => ts end).
  intros Hr.
  destruct (find_smaller_from_spec ts (position self))
    as [r' [Hr' [_ [_ [Hstop _]]]]].
  rewrite Hr in Hr'. injection Hr' as <-.
  destruct (Nat.lt_ge_cases (r + 1) (length ts)) as [Hlt | Hge].
  - apply find_smaller_from_stays. auto.
  - rewrite find_smaller_from_eq.
    replace (r + 1 <? length ts)%nat with false; [reflexivity|].
    symmetry. apply Nat.ltb_ge. exact Hge.
Qed.

Lemma find_smaller_idempotent_witness :
  find_smaller (set_position (mkOptiTrade scenario_A (PFloat 0.0025) 0 [] []) 1)
    None = Ok 1%nat.
Proof.
  apply (find_smaller_idempotent
           (mkOptiTrade scenario_A (PFloat 0.0025) 0 [] []) None 1).
  vm_compute. reflexivity.
Defined.

Lemma first_valid_index_first (cond : Q -> bool) (l : list Q) (label k : nat) :
  first_valid_index cond l label = Some k ->
  forall j v, (label <= j < k)%nat -> nth_error l (j - label) = Some v ->
              cond v = false.
Proof.
  revert label. induction l as [|w r IH]; intros label H j v Hj Hv;
    [discriminate|].
  simpl in H. destruct (cond w) eqn:E.
  - injection H as <-. lia.
  - destruct (Nat.eq_dec j label) as [->|Hne].
    + rewrite Nat.sub_diag in Hv. simpl in Hv. congruence.
    + apply (IH (S label) H j v); [lia|].
      replace (j - label)%nat with (S (j - S label)) in Hv by lia. exact Hv.
Qed.

Lemma first_valid_index_none (cond : Q -> bool) (l : list Q) (label : nat) :
  first_valid_index cond l label = None ->
  forall j v, nth_error l j = Some v -> cond v = false.
Proof.
  revert label. induction l as [|w r IH]; intros label H j v Hv.
  - now destruct j.
  - simpl in H. destruct (cond w) eqn:E; [discriminate|].
    destruct j as [|j]; simpl in Hv.
    + congruence.
    + exact (IH (S label) H j v Hv).
Qed.

(** The two outcomes of [find_next_larger] from a cursor inside the
    series. *)
Lemma find_next_larger_cases (self : OptiTrade) :
  (position self < length (tseries self))%nat ->
  (find_next_larger self = Ok None /\
   forall i, (position self <= i < length (tseries self))%nat ->
             le_at (tseries self) i (position self)) \/
  (exists nl,
     find_next_larger self = Ok (Some nl) /\
     (position self < nl < length (tseries self))%nat /\
     lt_at (tseries self) (position self) nl /\
     forall i, (position self <= i < nl)%nat ->
               le_at (tseries self) i (position self)).
Proof.
  intros Hpos. unfold find_next_larger.
  destruct (getitem_lt _ _ Hpos) as [vd [-> Hvd]]. cbn [bind slice].
  destruct (first_valid_index _ _ _) as [nl|] eqn:E; [right|left].
  - pose proof (first_valid_index_first _ _ _ _ E) as Hfirst.
    apply first_valid_index_Some in E. destruct E as [Hle [v [Hv Hc]]].
    rewrite nth_error_skipn_add in Hv.
    replace (position self + (nl - position self))%nat with nl in Hv by lia.
    apply Qgt_bool_iff in Hc.
    assert (Hnl : (nl < length (tseries self))%nat)
      by (apply nth_error_Some; congruence).
    assert (Hne : nl <> position self).
    { intros ->. rewrite Hvd in Hv. injection Hv as <-.
      exact (Qlt_irrefl _ Hc). }
    exists nl. split; [reflexivity|]. split; [lia|]. split.
    + exists vd, v. auto.
    + intros i Hi.
      destruct (getitem_lt (tseries self) i) as [w [_ Hw]]; [lia|].
      exists w, vd. repeat split; auto. apply Qgt_bool_false.
      apply (Hfirst i w); [lia|]. rewrite nth_error_skipn_add.
      replace (position self + (i - position self))%nat with i by lia.
      exact Hw.
  - split; [reflexivity|]. intros i Hi.
    destruct (getitem_lt (tseries self) i) as [w [_ Hw]]; [lia|].
    exists w, vd. repeat split; auto. apply Qgt_bool_false.
    apply (first_valid_index_none _ _ _ E (i - position self) w).
    rewrite nth_error_skipn_add.
    replace (position self + (i - position self))%nat with i by lia.
    exact Hw.
Qed.

(** X4. [find_next_larger], from a cursor inside the series, returns the
    first later position whose sample is above the sample at the cursor:
    no sample from the cursor up to it is above; it returns [None] exactly
    when no sample from the cursor on is above.  From a cursor outside the
    series it raises [KeyError]. *)
Theorem find_next_larger_first (self : OptiTrade) :
  ((position self < length (tseries self))%nat ->
   (find_next_larger self = Ok None /\
    forall i, (position self <= i < length (tseries self))%nat ->
              le_at (tseries self) i (position self)) \/
   (exists nl,
      find_next_larger self = Ok (Some nl) /\
      (position self < nl < length (tseries self))%nat /\
      lt_at (tseries self) (position self) nl /\
      forall i, (position self <= i < nl)%nat ->
                le_at (tseries self) i (position self))) /\
  ((length (tseries self) <= position self)%nat ->
   find_next_larger self = Raise KeyError).
Proof.
  split.
  - exact (find_next_larger_cases self).
  - intros Hpos. unfold find_next_larger, getitem.
    apply nth_error_None in Hpos. rewrite Hpos. reflexivity.
Qed.

Lemma find_next_larger_first_witness :
  (exists nl,
     find_next_larger (mkOptiTrade scenario_A (PFloat 0.0025) 3 [] [])
     = Ok (Some nl) /\
     (3 < nl < 9)%nat /\ lt_at scenario_A 3 nl /\
     forall i, (3 <= i < nl)%nat -> le_at scenario_A i 3) /\
  find_next_larger (mkOptiTrade scenario_A (PFloat 0.0025) 9 [] [])
  = Raise KeyError.
Proof.
  split.
  - destruct (proj1 (find_next_larger_first
                       (mkOptiTrade scenario_A (PFloat 0.0025) 3 [] [])))
      as [[H _] | H].
    + simpl. lia.
    + vm_compute in H. discriminate H.
    + exact H.
  - apply (proj2 (find_next_larger_first
                    (mkOptiTrade scenario_A (PFloat 0.0025) 9 [] []))).
    simpl. lia.
Defined.






(** * Further properties of the scan *)























(** Case analysis of a sequence of binds that ends well. *)
Ltac bind_cases H :=
  repeat match type of H with
    | bind ?m _ = Ok _ =>
        let E := fresh "E" in
        destruct m eqn:E; cbn [bind] in H; [|discriminate H]
    | match ?x with Some _ => _ | None => _ end = Ok _ =>
        let E := fresh "E" in destruct x eqn:E
    | (if ?b then _ else _) = Ok _ =>
        let E := fresh "E" in destruct b eqn:E
    end.

(** An iteration of the inner loop, in any state and with any penalty,
    leaves the series and the penalty as they are and appends at most one
    entry to the registry. *)
Lemma inner_body_frame (self self' : OptiTrade) (fl : flow) :
  inner_body self = Ok (fl, self') ->
  tseries self' = tseries self /\ penalty self' = penalty self /\
  exists l, registered_pairs self' = registered_pairs self ++ l /\
            (length l <= 1)%nat.
Proof.
  intros H. unfold inner_body, reduce_opt_in, move_to_next_larger in H.
  bind_cases H; injection H as <- <-;
    try match goal with
        | E : bind _ _ = Ok _ |- _ => bind_cases E; injection E as <-
        end;
    simpl; repeat split;
    first [ exists []; rewrite app_nil_r; split; [reflexivity | simpl; lia]
          | eexists [_]; split; [reflexivity | simpl; lia] ].
Qed.

Lemma step_frame (c c' : config) :
  step c = Ok c' ->
  tseries (snd c') = tseries (snd c) /\ penalty (snd c') = penalty (snd c) /\
  exists l, registered_pairs (snd c') = registered_pairs (snd c) ++ l /\
            (length l <= 1)%nat.
Proof.
  assert (Hsame : forall self : OptiTrade,
             tseries self = tseries self /\ penalty self = penalty self /\
             exists l, registered_pairs self = registered_pairs self ++ l /\
                       (length l <= 1)%nat).
  { intros self. repeat split. exists []. rewrite app_nil_r. auto. }
  destruct c as [[| |] self]; cbn [step]; intros H.
  - destruct (before_last self).
    + destruct (outer_body self) as [s1|e] eqn:E; cbn [bind] in H;
        [|discriminate].
      injection H as <-. unfold outer_body in E. bind_cases E.
      injection E as <-. simpl. apply (Hsame self).
    + injection H as <-. apply Hsame.
  - destruct (before_last self).
    + destruct (inner_body self) as [[fl s1]|e] eqn:E; cbn [bind] in H;
        [|discriminate].
      apply inner_body_frame in E.
      destruct fl; injection H as <-; exact E.
    + injection H as <-. apply Hsame.
  - injection H as <-. apply Hsame.
Qed.

(** X12. Whatever the state and the penalty, the transitions of
    [find_optimal_pairs] never change the series or the penalty, and they
    only append to [registered_pairs], at most one entry per iteration: an
    entry that is registered is never changed or removed. *)
Theorem registry_append_only (c c' : config) :
  (step c = Ok c' ->
   exists l, registered_pairs (snd c') = registered_pairs (snd c) ++ l /\
             (length l <= 1)%nat) /\
  (reaches c c' ->
   tseries (snd c') = tseries (snd c) /\ penalty (snd c') = penalty (snd c) /\
   exists l, registered_pairs (snd c') = registered_pairs (snd c) ++ l).
Proof.
  split.
  - intros H. apply step_frame in H. tauto.
  - intros Hr. induction Hr as [|c1 c2 Hr [IH1 [IH2 [l IH3]]] Hs].
    + repeat split. exists []. rewrite app_nil_r. reflexivity.
    + destruct (step_frame c1 c2 Hs) as [H1 [H2 [l' [H3 _]]]].
      split; [congruence|]. split; [congruence|].
      exists (l ++ l'). rewrite H3, IH3, app_assoc. reflexivity.
Qed.

Lemma registry_append_only_witness :
  (exists l,
     registered_pairs
       (snd (OuterHead,
             mkOptiTrade scenario_A (PFloat 0.0025) 5 [] [[1; 5]]%nat))
     = registered_pairs
         (snd (InnerHead,
               mkOptiTrade scenario_A (PFloat 0.0025) 5 [1%nat] [])) ++ l /\
     (length l <= 1)%nat) /\
  tseries (snd (OuterHead,
                mkOptiTrade scenario_A (PFloat 0.0025) 5 [] [[1; 5]]%nat))
  = tseries (snd (InnerHead,
                  mkOptiTrade scenario_A (PFloat 0.0025) 5 [1%nat] [])).
Proof.
  destruct (registry_append_only
              (InnerHead, mkOptiTrade scenario_A (PFloat 0.0025) 5 [1%nat] [])
              (OuterHead, mkOptiTrade scenario_A (PFloat 0.0025) 5 []
                            [[1; 5]]%nat)) as [H1 H2].
  split.
  - apply H1. vm_compute. reflexivity.
  - apply H2. eapply reaches_next; [apply reaches_here|].
    vm_compute. reflexivity.
Defined.







(** X15. The errors of [net_positive] with a scalar penalty: it raises
    [IndexError] when the buffer holds fewer than two indices, and
    [KeyError] when the second index of the buffer, which is looked up
    first, or else the first one, is outside the series. *)
Theorem net_positive_errors (self : OptiTrade) (p : Q) :
  penalty self = PFloat p ->
  ((length (tmp self) < 2)%nat -> net_positive self = Raise IndexError) /\
  (forall a b r,
     tmp self = a :: b :: r ->
     (length (tseries self) <= b)%nat \/ (length (tseries self) <= a)%nat ->
     net_positive self = Raise KeyError).
Proof.
  intros Hp. unfold net_positive. rewrite Hp. cbn [one_minus bind]. split.
  - intros Hlen. destruct (tmp self) as [|a [|b r]]; simpl in Hlen;
      try lia; reflexivity.
  - intros a b r -> Hout. cbn [list_get nth_error bind]. unfold getitem.
    destruct (nth_error (tseries self) b) as [vb|] eqn:Eb; cbn [bind];
      [|reflexivity].
    destruct Hout as [Hb | Ha].
    + apply nth_error_None in Hb. congruence.
    + apply nth_error_None in Ha. cbn [one_plus bind]. rewrite Ha.
      reflexivity.
Qed.

Lemma net_positive_errors_witness :
  net_positive (mkOptiTrade scenario_A (PFloat 0.0025) 0 [] [])
  = Raise IndexError /\
  net_positive (mkOptiTrade scenario_A (PFloat 0.0025) 0 [1; 9]%nat [])
  = Raise KeyError.
Proof.
  destruct (net_positive_errors
              (mkOptiTrade scenario_A (PFloat 0.0025) 0 [] []) 0.0025 eq_refl)
    as [H1 _].
  destruct (net_positive_errors
              (mkOptiTrade scenario_A (PFloat 0.0025) 0 [1; 9]%nat [])
              0.0025 eq_refl) as [_ H2].
  split.
  - apply H1. simpl. lia.
  - apply (H2 1%nat 9%nat [] eq_refl). left. simpl. lia.
Defined.

(** * Properties of the pair finder on binary64 samples *)

Module Float64Facts.

Import Float64.

(** ** The comparisons of binary64 *)

Lemma compare_antisym (x y : float) :
  SFcompare y x = option_map CompOpp (SFcompare x y).
Proof.
  destruct x as [sx|sx| |sx mx ex], y as [sy|sy| |sy my ey]; simpl;
    try reflexivity;
    try (destruct sx; reflexivity); try (destruct sy; reflexivity);
    try (destruct sx, sy; reflexivity).
  pose proof (Pos.compare_cont_antisym mx my Eq) as Hm. simpl in Hm.
  rewrite (Z.compare_antisym ex ey).
  destruct sx, sy; simpl; try reflexivity;
    destruct (ex ?= ey)%Z; simpl; try reflexivity.
  - change (PosDef.Pos.compare_cont Eq my mx) with (Pos.compare_cont Eq my mx).
    rewrite <- Hm. reflexivity.
  - change (PosDef.Pos.compare_cont Eq my mx) with (Pos.compare_cont Eq my mx).
    rewrite <- Hm. reflexivity.
Qed.

Lemma compare_not_nan (x y : float) :
  is_nan x = false -> is_nan y = false -> exists c, SFcompare x y = Some c.
Proof.
  destruct x, y; simpl; try discriminate; eauto.
Qed.

Lemma compare_opp (x y : float) :
  SFcompare (opp x) (opp y) = SFcompare y x.
Proof.
  rewrite (compare_antisym x y).
  destruct x as [sx|sx| |sx mx ex], y as [sy|sy| |sy my ey]; simpl;
    try reflexivity;
    try (destruct sx; reflexivity); try (destruct sy; reflexivity);
    try (destruct sx, sy; reflexivity).
  destruct sx, sy; simpl; try reflexivity;
    destruct (ex ?= ey)%Z; simpl; try reflexivity.
  rewrite CompOpp_involutive. reflexivity.
Qed.

Lemma gt_irrefl (x : float) : gt x x = false.
Proof.
  unfold gt, SFltb. destruct x as [s|s| |s m e]; simpl; try reflexivity.
  - destruct s; reflexivity.
  - rewrite Z.compare_refl, Pos.compare_cont_refl. destruct s; reflexivity.
Qed.

(** [x > y] excludes [y >= x], and [y > x]. *)
Lemma gt_not_ge (x y : float) : gt x y = true -> ge y x = false.
Proof.
  unfold gt, ge, SFltb, SFleb. rewrite (compare_antisym y x).
  destruct (SFcompare y x) as [[| |]|]; simpl; congruence.
Qed.

Lemma gt_ge (x y : float) : gt x y = true -> ge x y = true.
Proof.
  unfold gt, ge, SFltb, SFleb.
  destruct (SFcompare y x) as [[| |]|]; simpl; congruence.
Qed.

Lemma gt_asym (x y : float) : gt x y = true -> gt y x = true -> False.
Proof.
  unfold gt, SFltb. rewrite (compare_antisym y x).
  destruct (SFcompare y x) as [[| |]|]; simpl; congruence.
Qed.

Lemma gt_not_nan (x y : float) :
  gt x y = true -> is_nan x = false /\ is_nan y = false.
Proof.
  unfold gt, SFltb. destruct x, y; simpl; auto; discriminate.
Qed.

(** On numbers, [x >= y] fails only when [y > x]. *)
Lemma not_ge_gt (x y : float) :
  is_nan x = false -> is_nan y = false -> ge x y = false -> gt y x = true.
Proof.
  intros Hx Hy. unfold gt, ge, SFltb, SFleb. rewrite (compare_antisym y x).
  destruct (compare_not_nan y x Hy Hx) as [c ->].
  destruct c; simpl; congruence.
Qed.

Lemma gt_opp (x y : float) : gt (opp x) (opp y) = gt y x.
Proof. unfold gt, SFltb. rewrite compare_opp. reflexivity. Qed.

Lemma ge_opp (x y : float) : ge (opp x) (opp y) = ge y x.
Proof. unfold ge, SFleb. rewrite compare_opp. reflexivity. Qed.

Lemma is_nan_opp (x : float) : is_nan (opp x) = is_nan x.
Proof. destruct x; reflexivity. Qed.

(** ** Sequences *)

Lemma getitem_in (ts : list float) (i : nat) :
  (i < length ts)%nat ->
  exists v, getitem ts i = Ok v /\ nth_error ts i = Some v.
Proof.
  intros H. unfold getitem. destruct (nth_error ts i) eqn:E.
  - eauto.
  - apply nth_error_None in E. lia.
Qed.

Lemma nth_error_opp (ts : list float) (i : nat) :
  nth_error (neg ts) i = option_map opp (nth_error ts i).
Proof. unfold neg. apply nth_error_map. Qed.

Lemma length_opp (ts : list float) : length (neg ts) = length ts.
Proof. unfold neg. apply length_map. Qed.

Lemma no_nan_nth (ts : list float) (i : nat) (v : float) :
  no_nan ts -> nth_error ts i = Some v -> is_nan v = false.
Proof.
  intros H Hv. unfold no_nan in H. rewrite Forall_forall in H.
  apply H. exact (nth_error_In _ _ Hv).
Qed.

Lemma first_valid_index_found (cond : float -> bool) (l : list float)
  (label k : nat) :
  first_valid_index cond l label = Some k ->
  (label <= k)%nat /\
  exists v, nth_error l (k - label) = Some v /\ cond v = true.
Proof.
  revert label. induction l as [|v r IH]; intros label H; [discriminate|].
  simpl in H. destruct (cond v) eqn:E.
  - injection H as <-. split; [lia|]. rewrite Nat.sub_diag. simpl. eauto.
  - apply IH in H. destruct H as [Hle [w [Hw Hc]]]. split; [lia|].
    exists w. split; [|exact Hc].
    replace (k - label)%nat with (S (k - S label)) by lia. exact Hw.
Qed.

Lemma argmin_scan_below (l : list float) (i : nat) (best : float)
  (besti : nat) :
  (besti < i)%nat -> (argmin_scan l i best besti < i + length l)%nat.
Proof.
  revert i best besti. induction l as [|v r IH]; intros i best besti H; simpl.
  - lia.
  - destruct (gt best (fill_nan v)).
    + specialize (IH (S i) (fill_nan v) i). lia.
    + specialize (IH (S i) best besti). lia.
Qed.

(** [argmin] returns a position of a slice that starts with a number. *)
Lemma argmin_in (v : float) (r : list float) :
  is_nan v = false ->
  exists i, argmin (v :: r) = Ok i /\ (i < length (v :: r))%nat.
Proof.
  intros Hv. unfold argmin. cbn [forallb]. rewrite Hv. cbn [andb].
  eexists. split; [reflexivity|].
  pose proof (argmin_scan_below r 1 (fill_nan v) 0). simpl. lia.
Qed.

(** ** [find_smaller] *)

Lemma find_smaller_from_step (ts : list float) (pos : nat) :
  find_smaller_from ts pos =
  if (pos + 1 <? length ts)%nat then
    x <- getitem ts pos ;;
    y <- getitem ts (pos + 1) ;;
    if ge x y then find_smaller_from ts (pos + 1) else Ok pos
  else Ok pos.
Proof.
  funelim (find_smaller_from ts pos).
  - rewrite Hlt. reflexivity.
  - rewrite e. reflexivity.
Qed.

(** On every series [find_smaller] returns, not before the cursor and
    inside the series, where its test fails or at the last position. *)
Lemma find_smaller_from_stops (ts : list float) (pos : nat) :
  exists r,
    find_smaller_from ts pos = Ok r /\
    (pos <= r)%nat /\
    ((pos < length ts)%nat -> (r < length ts)%nat) /\
    ((r + 1 < length ts)%nat -> stops ts r) /\
    (r = pos -> (pos + 1 < length ts)%nat -> stops ts pos).
Proof.
  remember (length ts - pos)%nat as n eqn:Hn. revert pos Hn.
  induction n as [n IH] using lt_wf_ind. intros pos Hn.
  rewrite find_smaller_from_step.
  destruct (pos + 1 <? length ts)%nat eqn:Hlt.
  - apply Nat.ltb_lt in Hlt.
    destruct (getitem_in ts pos) as [x [-> Hx]]; [lia|].
    destruct (getitem_in ts (pos + 1)) as [y [-> Hy]]; [lia|].
    simpl. destruct (ge x y) eqn:Hge.
    + destruct (IH (length ts - (pos + 1))%nat ltac:(lia) (pos + 1)%nat eq_refl)
        as [r [Hr [Hle [Hin [Hstop _]]]]].
      exists r. repeat split; try assumption; try lia.
    + assert (Hp : stops ts pos).
      { exists x, y. replace (S pos) with (pos + 1)%nat by lia. auto. }
      exists pos. repeat split; auto.
  - apply Nat.ltb_ge in Hlt. exists pos. repeat split; auto; lia.
Qed.

Lemma stops_rises (ts : list float) (i : nat) :
  no_nan ts -> stops ts i -> rises ts i.
Proof.
  intros Hn [x [y [Hx [Hy H]]]]. exists x, y. repeat split; auto.
  apply not_ge_gt; eauto using no_nan_nth.
Qed.

Lemma stops_neg_falls (ts : list float) (i : nat) :
  no_nan ts -> stops (neg ts) i -> falls ts i.
Proof.
  intros Hn [x [y [Hx [Hy H]]]]. rewrite nth_error_opp in Hx, Hy.
  destruct (nth_error ts i) as [x'|] eqn:Ex; [|discriminate].
  destruct (nth_error ts (S i)) as [y'|] eqn:Ey; [|discriminate].
  simpl in Hx, Hy. injection Hx as <-. injection Hy as <-.
  rewrite ge_opp in H. exists x', y'. split; [exact Ex|].
  split; [exact Ey|]. apply not_ge_gt; eauto using no_nan_nth.
Qed.

Lemma rises_falls_absurd (ts : list float) (i : nat) :
  rises ts i -> falls ts i -> False.
Proof.
  intros [x [y [Hx [Hy H1]]]] [x' [y' [Hx' [Hy' H2]]]].
  rewrite Hx in Hx'. rewrite Hy in Hy'. injection Hx' as <-. injection Hy' as <-.
  exact (gt_asym _ _ H1 H2).
Qed.

Lemma falls_not_stops (ts : list float) (i : nat) :
  falls ts i -> stops ts i -> False.
Proof.
  intros [x [y [Hx [Hy H1]]]] [x' [y' [Hx' [Hy' H2]]]].
  rewrite Hx in Hx'. rewrite Hy in Hy'. injection Hx' as <-. injection Hy' as <-.
  apply gt_ge in H1. congruence.
Qed.

Lemma rises_stops (ts : list float) (i : nat) : rises ts i -> stops ts i.
Proof.
  intros [x [y [Hx [Hy H]]]]. exists x, y. repeat split; auto.
  apply gt_not_ge. exact H.
Qed.

(** From a position followed by a sample below, the search moves. *)
Lemma find_smaller_from_leaves (ts : list float) (pos r : nat) :
  find_smaller_from ts pos = Ok r -> falls ts pos -> (pos < r)%nat.
Proof.
  intros Hr Hf. destruct (find_smaller_from_stops ts pos)
    as [r' [Hr' [Hle [_ [_ Hstop]]]]].
  rewrite Hr in Hr'. injection Hr' as <-.
  destruct (Nat.eq_dec r pos) as [->|]; [|lia].
  exfalso. apply (falls_not_stops ts pos Hf).
  apply Hstop; [reflexivity|].
  destruct Hf as [x [y [_ [Hy _]]]].
  assert (S pos < length ts)%nat by (apply nth_error_Some; congruence). lia.
Qed.

(** Below a rise the search stays. *)
Lemma find_smaller_from_rests (ts : list float) (pos : nat) :
  stops ts pos -> find_smaller_from ts pos = Ok pos.
Proof.
  intros [x [y [Hx [Hy Hge]]]]. rewrite find_smaller_from_step.
  assert (Hin : (S pos < length ts)%nat) by (apply nth_error_Some; congruence).
  replace (pos + 1 <? length ts)%nat with true
    by (symmetry; apply Nat.ltb_lt; lia).
  unfold getitem. rewrite Hx. replace (pos + 1)%nat with (S pos) by lia.
  rewrite Hy. simpl. rewrite Hge. reflexivity.
Qed.

(** ** The other primitives, on a scalar penalty *)

Lemma find_next_larger_found (self : OptiTrade) :
  (position self < length (tseries self))%nat ->
  find_next_larger self = Ok None \/
  exists nl vd v,
    find_next_larger self = Ok (Some nl) /\
    (position self < nl < length (tseries self))%nat /\
    nth_error (tseries self) (position self) = Some vd /\
    nth_error (tseries self) nl = Some v /\ gt v vd = true.
Proof.
  intros Hpos. unfold find_next_larger.
  destruct (getitem_in _ _ Hpos) as [vd [-> Hvd]]. cbn [bind slice].
  destruct (first_valid_index _ _ _) as [nl|] eqn:E; [right|now left].
  apply first_valid_index_found in E. destruct E as [Hle [v [Hv Hc]]].
  rewrite nth_error_skipn in Hv.
  replace (position self + (nl - position self))%nat with nl in Hv by lia.
  assert (Hnl : (nl < length (tseries self))%nat)
    by (apply nth_error_Some; congruence).
  exists nl, vd, v. repeat split; auto.
  destruct (Nat.eq_dec nl (position self)) as [E|]; [|lia].
  rewrite E, Hvd in Hv. injection Hv as <-. rewrite gt_irrefl in Hc.
  discriminate.
Qed.

Lemma find_min_in (self : OptiTrade) (nl : nat) (vd : float) :
  (position self < nl)%nat -> (nl < length (tseries self))%nat ->
  nth_error (tseries self) (position self) = Some vd -> is_nan vd = false ->
  exists ip,
    find_min self (Some nl) = Ok ip /\
    (position self <= ip)%nat /\ (ip < nl)%nat.
Proof.
  intros H1 H2 Hvd Hnan. unfold find_min. cbn [slice].
  destruct (skipn (position self) (tseries self)) as [|v r] eqn:Es.
  - apply (f_equal (@length float)) in Es. rewrite length_skipn in Es.
    simpl in Es. lia.
  - assert (Ev : v = vd).
    { pose proof (nth_error_skipn (position self) (tseries self) 0) as H.
      rewrite Es, Nat.add_0_r, Hvd in H. simpl in H. congruence. }
    subst v.
    destruct (nl - position self)%nat as [|k] eqn:Ek; [lia|].
    cbn [firstn]. destruct (argmin_in vd (firstn k r) Hnan) as [i [-> Hi]].
    cbn [bind]. eexists. split; [reflexivity|].
    simpl in Hi. rewrite length_firstn in Hi. lia.
Qed.

Lemma net_positive_value (self : OptiTrade) (p va vb : float) (a b : nat)
  (r : list nat) :
  penalty self = PFloat p -> tmp self = a :: b :: r ->
  nth_error (tseries self) a = Some va ->
  nth_error (tseries self) b = Some vb ->
  net_positive self = Ok (gain_test p va vb).
Proof.
  intros Hp Ht Ha Hb. unfold net_positive. rewrite Hp, Ht. simpl.
  unfold getitem. rewrite Hb. simpl. rewrite Ha. reflexivity.
Qed.

Lemma check_profitable_value (self : OptiTrade) (p v : float) :
  penalty self = PFloat p ->
  (position self < length (tseries self))%nat ->
  exists b, check_profitable self v = Ok b.
Proof.
  intros Hp Hpos. unfold check_profitable.
  destruct (getitem_in _ _ Hpos) as [c [-> _]]. rewrite Hp. simpl. eauto.
Qed.

(** ** The iterations of the scan *)

Lemma before_last_yes (self : OptiTrade) :
  before_last self = true <->
  (position self + 1 < length (tseries self))%nat.
Proof. unfold before_last. rewrite Z.ltb_lt. lia. Qed.

Lemma before_last_no (self : OptiTrade) :
  before_last self = false <->
  (length (tseries self) <= position self + 1)%nat.
Proof. unfold before_last. rewrite Z.ltb_ge. lia. Qed.

Lemma run_next (fuel : nat) (c c' : config) :
  fst c <> Return -> step c = Ok c' -> run (S fuel) c = run fuel c'.
Proof.
  destruct c as [[| |] self]; intros Hpt Hs; [| |now elim Hpt];
    simpl run; unfold step in Hs; rewrite Hs; reflexivity.
Qed.

(** What an iteration of the inner loop does on any series, with a scalar
    penalty and the opting in position [a] in the buffer: with the decision
    point [dp], it registers [[a; dp]] and breaks, or drops the buffer and
    breaks, or reduces the opting in value, or moves to the next larger
    sample.  It raises nothing. *)
Lemma inner_body_outcomes (self : OptiTrade) (p : float) (a : nat) :
  penalty self = PFloat p -> tmp self = [a] ->
  (a < length (tseries self))%nat ->
  (position self < length (tseries self))%nat ->
  exists dp,
    find_smaller_from (neg (tseries self)) (position self) = Ok dp /\
    (position self <= dp < length (tseries self))%nat /\
    ((net_gain (tseries self) p a dp /\
      inner_body self =
      Ok (Break, mkOptiTrade (tseries self) (penalty self) dp []
                   (registered_pairs self ++ [[a; dp]]))) \/
     inner_body self =
     Ok (Break, mkOptiTrade (tseries self) (penalty self) dp []
                  (registered_pairs self)) \/
     (exists r,
        find_smaller_from (tseries self) dp = Ok r /\
        (dp + 1 < length (tseries self))%nat /\
        inner_body self =
        Ok (Continue, mkOptiTrade (tseries self) (penalty self) r [r]
                        (registered_pairs self))) \/
     (exists nl,
        (dp < nl < length (tseries self))%nat /\
        inner_body self =
        Ok (Continue, mkOptiTrade (tseries self) (penalty self) nl [a]
                        (registered_pairs self)))).
Proof.
  intros Hp Ht Ha Hpos.
  destruct (find_smaller_from_stops (neg (tseries self)) (position self))
    as [dp [Hdp [Hle [Hin _]]]].
  rewrite length_opp in Hin. specialize (Hin Hpos).
  exists dp. split; [exact Hdp|]. split; [lia|].
  unfold inner_body, find_smaller. rewrite Hdp. cbn [bind].
  unfold set_tmp, set_position.
  cbn [tmp tseries penalty position registered_pairs]. rewrite Ht.
  cbn [app].
  set (self1 := mkOptiTrade (tseries self) (penalty self) dp [a; dp]
                  (registered_pairs self)).
  destruct (getitem_in _ _ Ha) as [va [_ Hva]].
  destruct (getitem_in _ _ Hin) as [vd0 [_ Hvd0]].
  pose proof (net_positive_value self1 p va vd0 a dp [] Hp eq_refl Hva Hvd0)
    as Hnp.
  destruct (find_next_larger_found self1 Hin)
    as [Hnone | [nl [vd [v [Hsome [Hnl [Hvd [Hv Hgt]]]]]]]].
  - rewrite Hnone. cbn [bind]. rewrite Hnp. cbn [bind].
    destruct (gain_test p va vd0) eqn:Hg.
    + left. split; [|reflexivity]. exists va, vd0. auto.
    + right. left. reflexivity.
  - rewrite Hsome. cbn [bind]. cbn [position tseries self1] in Hnl, Hvd, Hv.
    destruct (gt_not_nan _ _ Hgt) as [_ Hnan].
    destruct (find_min_in self1 nl vd) as [ip [Hip [Hip1 Hip2]]];
      [simpl; lia | simpl; lia | exact Hvd | exact Hnan |].
    rewrite Hip. cbn [bind]. cbn [position self1] in Hip1.
    destruct (getitem_in (tseries self) ip) as [w [Hw _]]; [lia|].
    cbn [tseries self1]. rewrite Hw. cbn [bind].
    destruct (check_profitable_value self1 p w Hp Hin) as [b Hb].
    rewrite Hb. cbn [bind]. destruct b.
    + rewrite Hnp. cbn [bind]. destruct (gain_test p va vd0) eqn:Hg.
      * left. split; [|reflexivity]. exists va, vd0. auto.
      * right. right. left.
        unfold reduce_opt_in, find_smaller. cbn [tseries position self1].
        destruct (find_smaller_from_stops (tseries self) dp) as [r [Hr _]].
        exists r. split; [exact Hr|]. split; [lia|].
        rewrite Hr. reflexivity.
    + right. right. right. exists nl. split; [lia|]. reflexivity.
Qed.

(** The transitions of a scan keep [inv], on every series, and raise
    nothing; the cursor does not move backward. *)
Lemma step_keeps_inv (ts : list float) (p : float) (c : config) :
  inv ts p c ->
  exists c',
    step c = Ok c' /\ inv ts p c' /\
    (position (snd c) <= position (snd c'))%nat.
Proof.
  destruct c as [[| |] self]; intros Hinv.
  - (* the head of the outer loop *)
    destruct Hinv as [Hts [Hp [Hrp [Hcur Htmp]]]].
    cbn [step]. destruct (before_last self) eqn:Hbl.
    + destruct Htmp as [Ht | [Hf _]]; [|congruence].
      apply before_last_yes in Hbl. rewrite Hts in Hbl.
      unfold outer_body, find_smaller.
      destruct (find_smaller_from_stops (tseries self) (position self))
        as [r [Hr [Hle [Hin _]]]].
      rewrite Hr. cbn [bind]. rewrite Hts in *.
      eexists. split; [reflexivity|]. split; [|exact Hle].
      simpl. rewrite Ht. unfold cursor_ok. simpl. repeat split; auto; try lia.
      exists r. split; [reflexivity|]. lia.
    + exists (Return, self). split; [reflexivity|]. split; [|simpl; lia].
      simpl. repeat split; auto.
      destruct Htmp as [-> | [_ [a ->]]]; simpl; lia.
  - (* the head of the inner loop *)
    destruct Hinv as [Hts [Hp [Hrp [Hpos [a [Ht Ha]]]]]].
    cbn [step]. destruct (before_last self) eqn:Hbl.
    + rewrite <- Hts in Hpos.
      destruct (inner_body_outcomes self p a Hp Ht ltac:(lia) Hpos)
        as [dp [Hdp [Hin Hcases]]].
      rewrite Hts in *.
      destruct Hcases as [[Hg Hb] | [Hb | [[r [Hr [Hdp1 Hb]]] | [nl [Hnl Hb]]]]];
        rewrite Hb; cbn [bind]; eexists; (split; [reflexivity|]);
        (split; [|simpl; try lia]).
      * simpl. rewrite Hp. unfold cursor_ok. simpl. repeat split; auto; try lia.
        apply Forall_app. split; [exact Hrp|].
        constructor; [|constructor]. exists a, dp. repeat split; auto. lia.
      * simpl. rewrite Hp. unfold cursor_ok. simpl. repeat split; auto; try lia.
      * destruct (find_smaller_from_stops ts dp) as [r' [Hr' [Hle' [Hin' _]]]].
        rewrite Hr in Hr'. injection Hr' as <-.
        simpl. rewrite Hp. unfold cursor_ok. simpl. repeat split; auto; try lia.
        exists r. split; [reflexivity|]. lia.
      * destruct (find_smaller_from_stops ts dp) as [r' [Hr' [Hle' _]]].
        rewrite Hr in Hr'. injection Hr' as <-. lia.
      * simpl. rewrite Hp. unfold cursor_ok. simpl. repeat split; auto; try lia.
        exists a. split; [reflexivity|]. lia.
    + exists (OuterHead, self). split; [reflexivity|]. split; [|simpl; lia].
      simpl. repeat split; auto.
      * left. exact Hpos.
      * right. split; [exact Hbl|]. eauto.
  - exists (Return, self). split; [reflexivity|]. split; [exact Hinv|].
    simpl. lia.
Qed.

Lemma inv_start (ts : list float) (p : float) : inv ts p (start ts p).
Proof. simpl. repeat split; auto. right. reflexivity. Qed.

Lemma reaches_keeps_inv (ts : list float) (p : float) (c : config) :
  reaches (start ts p) c -> inv ts p c.
Proof.
  intros Hr. induction Hr as [|c1 c2 Hr IH Hs]; [apply inv_start|].
  destruct (step_keeps_inv ts p c1 IH) as [c' [Hs' [Hi _]]].
  rewrite Hs in Hs'. injection Hs' as <-. exact Hi.
Qed.

(** No bounded run raises, on any series. *)
Lemma run_raises_nothing (ts : list float) (p : float) (fuel : nat)
  (c : config) (e : exn) :
  inv ts p c -> run fuel c <> Some (Raise e).
Proof.
  revert c. induction fuel as [|fuel IH]; intros c Hinv.
  - destruct c as [[| |] self]; simpl; discriminate.
  - destruct c as [pt self].
    destruct (point_eq_Return pt) as [-> | Hpt].
    + simpl. discriminate.
    + destruct (step_keeps_inv ts p (pt, self) Hinv) as [c' [Hs [Hi _]]].
      rewrite (run_next fuel (pt, self) c' Hpt Hs). apply IH. exact Hi.
Qed.

(** The run that returns goes through reachable configurations. *)
Lemma run_reaches_return (fuel : nat) (c : config) (self' : OptiTrade) :
  run fuel c = Some (Ok self') -> reaches c (Return, self').
Proof.
  assert (G : forall c0 c1, reaches c0 c1 ->
              run fuel c1 = Some (Ok self') -> reaches c0 (Return, self')).
  { induction fuel as [|fuel IH]; intros c0 c1 Hr H.
    - destruct c1 as [[| |] self]; simpl in H; try discriminate.
      injection H as <-. exact Hr.
    - destruct c1 as [pt self]. destruct (point_eq_Return pt) as [-> | Hpt].
      + simpl in H. injection H as <-. exact Hr.
      + destruct (step (pt, self)) as [c2|e] eqn:Hs.
        * rewrite (run_next fuel (pt, self) c2 Hpt Hs) in H.
          apply (IH c0 c2); [|exact H].
          apply (reaches_next c0 (pt, self) c2 Hr Hs).
        * destruct pt; cbn [run] in H; try (now elim Hpt);
            rewrite Hs in H; discriminate. }
  apply G. constructor.
Qed.

(** ** The scan on a series without NaN *)

Lemma chain_pairs (rp : list (list nat)) (lo hi : nat) :
  chain lo rp hi ->
  Forall (fun pr => exists a b, pr = [a; b] /\ (a < b)%nat) rp.
Proof.
  revert lo. induction rp as [|pr r IH]; intros lo H; [constructor|].
  simpl in H. destruct H as [a [b [E [_ [Hlt H]]]]].
  constructor; [eauto | exact (IH b H)].
Qed.

Lemma stays_not (self : OptiTrade) :
  falls (tseries self) (position self) -> stays self = false.
Proof.
  intros Hf. unfold stays, find_smaller.
  destruct (find_smaller_from_stops (tseries self) (position self))
    as [r [Hr _]].
  rewrite Hr. apply (find_smaller_from_leaves _ _ _ Hr) in Hf.
  apply Nat.eqb_neq. lia.
Qed.

(** After a [break] the cursor is on a decision point: the head of the
    outer loop is reached with fewer transitions left. *)
Lemma measure_after_break (ts : list float) (self' : OptiTrade) (pos : nat) :
  tseries self' = ts ->
  (pos <= position self')%nat ->
  ((position self' + 1 < length ts)%nat -> falls ts (position self')) ->
  (measure (OuterHead, self') < 2 + 3 * (length ts - pos))%nat.
Proof.
  intros Hts Hle Hfall. simpl. rewrite Hts.
  destruct (before_last self' && stays self') eqn:E; [|lia].
  apply andb_prop in E. destruct E as [E1 E2].
  apply before_last_yes in E1. rewrite Hts in E1.
  rewrite stays_not in E2; [discriminate|]. rewrite Hts. auto.
Qed.

(** On a series without NaN the transitions keep [inv_order], there are
    fewer of them left after each, and an iteration that stays in the inner
    loop moves the cursor strictly forward and does not move the opting in
    position backward. *)
Lemma step_keeps_order (ts : list float) (p : float) (c c' : config) :
  no_nan ts -> inv ts p c -> inv_order ts c -> step c = Ok c' ->
  inv_order ts c' /\
  (fst c <> Return -> (measure c' < measure c)%nat) /\
  (fst c = InnerHead -> fst c' = InnerHead ->
   (position (snd c) < position (snd c'))%nat /\
   exists a a',
     tmp (snd c) = [a] /\ tmp (snd c') = [a'] /\ (a <= a')%nat).
Proof.
  intros Hnan. destruct c as [[| |] self]; intros Hinv Hord Hs.
  - (* the head of the outer loop *)
    destruct Hinv as [Hts [Hp [_ [Hcur Htmp]]]]. simpl in Hord.
    cbn [step] in Hs. destruct (before_last self) eqn:Hbl.
    + destruct Htmp as [Ht | [Hf _]]; [|congruence].
      unfold outer_body, find_smaller in Hs. rewrite Hts in Hs.
      destruct (find_smaller_from_stops ts (position self))
        as [r [Hr [Hle [Hin [Hstop _]]]]].
      rewrite Hr in Hs. cbn [bind] in Hs. injection Hs as <-.
      pose proof Hbl as Hbl'. apply before_last_yes in Hbl'.
      rewrite Hts in Hbl'.
      split; [|split; [|discriminate]].
      * simpl. rewrite Ht. exists r. split; [reflexivity|]. split.
        -- apply (chain_weaken _ 0 (position self)); auto.
        -- right. split; [reflexivity|]. intros H.
           apply (stops_rises ts r Hnan). auto.
      * intros _. cbn [measure]. rewrite Hbl. unfold stays, find_smaller.
        rewrite Hts, Hr. cbn [tseries position set_tmp set_position].
        rewrite Hts. destruct (r =? position self)%nat eqn:E.
        -- apply Nat.eqb_eq in E. simpl. lia.
        -- apply Nat.eqb_neq in E. simpl.
           assert (r < length ts)%nat by (apply Hin; lia). lia.
    + injection Hs as <-. split; [exact Hord|]. split; [|discriminate].
      intros _. simpl. lia.
  - (* the head of the inner loop *)
    pose proof Hinv as [Hts [Hp [_ [Hpos [a [Ht Hale]]]]]].
    destruct Hord as [a' [Ht' [Hch Ha]]].
    rewrite Ht in Ht'. injection Ht' as <-.
    cbn [step] in Hs. destruct (before_last self) eqn:Hbl.
    + rewrite <- Hts in Hpos.
      destruct (inner_body_outcomes self p a Hp Ht ltac:(lia) Hpos)
        as [dp [Hdp [Hin Hcases]]].
      rewrite Hts in *.
      assert (Hfall : (dp + 1 < length ts)%nat -> falls ts dp).
      { intros H. apply (stops_neg_falls ts dp Hnan).
        destruct (find_smaller_from_stops (neg ts) (position self))
          as [dp' [Hdp' [_ [_ [Hstop _]]]]].
        rewrite Hdp in Hdp'. injection Hdp' as <-. apply Hstop.
        rewrite length_opp. exact H. }
      pose proof Hbl as Hbl'. apply before_last_yes in Hbl'.
      rewrite Hts in Hbl'.
      assert (Hadp : (a < dp)%nat).
      { destruct Ha as [|[-> Hrise]]; [lia|].
        destruct (Nat.eq_dec dp (position self)) as [E|]; [|lia].
        exfalso. apply (rises_falls_absurd ts (position self)); [auto|].
        rewrite <- E. apply Hfall. lia. }
      change (measure (InnerHead, self))
        with (2 + 3 * (length (tseries self) - position self))%nat.
      rewrite Hts.
      destruct Hcases as [[_ Hb] | [Hb | [[r [Hr [Hdp1 Hb]]] | [nl [Hnl Hb]]]]];
        rewrite Hb in Hs; cbn [bind] in Hs; injection Hs as <-.
      * (* the pair is registered *)
        split; [|split; [|discriminate]].
        -- simpl. apply (chain_snoc _ 0 a a dp dp); auto.
        -- intros _. apply measure_after_break;
             [reflexivity | simpl; lia | simpl; exact Hfall].
      * (* the buffer is dropped *)
        split; [|split; [|discriminate]].
        -- simpl. apply (chain_weaken _ 0 a); [exact Hch|lia].
        -- intros _. apply measure_after_break;
             [reflexivity | simpl; lia | simpl; exact Hfall].
      * (* the opting in value is reduced *)
        assert (Hdr : (dp < r)%nat)
          by (apply (find_smaller_from_leaves ts dp r Hr); auto).
        destruct (find_smaller_from_stops ts dp)
          as [r' [Hr' [_ [Hrin [Hrstop _]]]]].
        rewrite Hr in Hr'. injection Hr' as <-.
        assert (r < length ts)%nat by (apply Hrin; lia).
        split; [|split].
        -- simpl. exists r. split; [reflexivity|]. split.
           ++ apply (chain_weaken _ 0 a); [exact Hch|lia].
           ++ right. split; [reflexivity|]. intros H1.
              apply (stops_rises ts r Hnan). auto.
        -- intros _. simpl. lia.
        -- intros _ _. simpl. split; [lia|].
           exists a, r. rewrite Ht. repeat split. lia.
      * (* the cursor moves to the next larger sample *)
        split; [|split].
        -- simpl. exists a. split; [reflexivity|]. split; [exact Hch|].
           left. lia.
        -- intros _. simpl. lia.
        -- intros _ _. simpl. split; [lia|].
           exists a, a. rewrite Ht. repeat split. lia.
    + injection Hs as <-. split; [|split].
      * simpl. apply (chain_weaken _ 0 a); [exact Hch|lia].
      * intros _. simpl. rewrite Hbl. simpl. lia.
      * intros _ H. discriminate H.
  - simpl in Hs. injection Hs as <-. split; [exact Hord|].
    split; [intros H; now elim H | discriminate].
Qed.

Lemma inv_order_start (ts : list float) (p : float) :
  inv_order ts (start ts p).
Proof. simpl. lia. Qed.

Lemma reaches_keeps_order (ts : list float) (p : float) (c : config) :
  no_nan ts -> reaches (start ts p) c -> inv ts p c /\ inv_order ts c.
Proof.
  intros Hnan Hr. induction Hr as [|c1 c2 Hr [IH1 IH2] Hs].
  - split; [apply inv_start | apply inv_order_start].
  - split.
    + apply reaches_keeps_inv. exact (reaches_next _ c1 c2 Hr Hs).
    + exact (proj1 (step_keeps_order ts p c1 c2 Hnan IH1 IH2 Hs)).
Qed.

(** On a series without NaN, with enough transitions, the scan returns. *)
Lemma run_returns (ts : list float) (p : float) (fuel : nat) (c : config) :
  no_nan ts -> inv ts p c -> inv_order ts c -> (measure c <= fuel)%nat ->
  exists self', run fuel c = Some (Ok self').
Proof.
  intros Hnan. revert c. induction fuel as [|fuel IH]; intros c Hinv Hord Hm.
  - destruct c as [[| |] self]; simpl in Hm; try lia.
    exists self. reflexivity.
  - destruct c as [pt self].
    destruct (point_eq_Return pt) as [-> | Hpt].
    + exists self. reflexivity.
    + destruct (step_keeps_inv ts p (pt, self) Hinv) as [c' [Hs [Hi _]]].
      destruct (step_keeps_order ts p (pt, self) c' Hnan Hinv Hord Hs)
        as [Ho [Hlt _]].
      specialize (Hlt Hpt).
      rewrite (run_next fuel (pt, self) c' Hpt Hs).
      apply (IH c' Hi Ho). lia.
Qed.

(** The scan of a fresh instance on a series without NaN returns, with the
    invariants. *)
Lemma scan_of_numbers_returns (ts : list float) (p : float) (fuel : nat) :
  no_nan ts -> (enough ts <= fuel)%nat ->
  exists self',
    scan fuel ts p = Some (Ok self') /\
    inv ts p (Return, self') /\ inv_order ts (Return, self').
Proof.
  intros Hnan Hf.
  destruct (run_returns ts p fuel (start ts p) Hnan (inv_start ts p)
              (inv_order_start ts p)) as [self' Hr].
  - unfold enough in Hf. simpl. destruct (before_last _ && stays _); lia.
  - exists self'. split; [exact Hr|].
    apply (reaches_keeps_order ts p _ Hnan).
    apply (run_reaches_return fuel). exact Hr.
Qed.

(** ** The properties *)

(** C1 does not hold as stated: on the series [-1.0, NaN] with penalty 0.1
    the first iteration registers the pair [[0; 0]], whose two positions
    are the same. *)
Lemma nan_series_registers_0_0 :
  reaches (start [of_Z (-1); nan] (dec 1 10))
    (OuterHead,
     mkOptiTrade [of_Z (-1); nan] (PFloat (dec 1 10)) 0 [] [[0; 0]]%nat) /\
  ~ Forall (fun pr => exists a b, pr = [a; b] /\ (a < b)%nat)
      (registered_pairs
         (mkOptiTrade [of_Z (-1); nan] (PFloat (dec 1 10)) 0 [] [[0; 0]]%nat)).
Proof.
  split.
  - eapply reaches_next; [eapply reaches_next; [apply reaches_here|]|];
      vm_compute; reflexivity.
  - intros H. inversion H as [|? ? [a [b [E Hlt]]] _]. injection E as <- <-.
    lia.
Qed.

(** C1, amended. Ordering invariant on a series without NaN samples, with
    any scalar penalty: at every moment of the scan, and when it returns,
    every registered entry is a pair [[a; b]] with [a < b], and consecutive
    pairs do not overlap: [pairs[i][1] <= pairs[i+1][0]]. *)
Theorem ordering_on_numbers (ts : list float) (p : float) :
  no_nan ts ->
  (forall c,
     reaches (start ts p) c ->
     Forall (fun pr => exists a b, pr = [a; b] /\ (a < b)%nat)
       (registered_pairs (snd c)) /\
     non_overlapping (registered_pairs (snd c))) /\
  (forall fuel, (enough ts <= fuel)%nat ->
     exists self',
       scan fuel ts p = Some (Ok self') /\
       Forall (fun pr => exists a b, pr = [a; b] /\ (a < b)%nat)
         (registered_pairs self') /\
       non_overlapping (registered_pairs self')).
Proof.
  intros Hnan.
  assert (G : forall c, inv_order ts c ->
              Forall (fun pr => exists a b, pr = [a; b] /\ (a < b)%nat)
                (registered_pairs (snd c)) /\
              non_overlapping (registered_pairs (snd c))).
  { intros [[| |] self] H; simpl in H.
    - split; [exact (chain_pairs _ _ _ H)|].
      exact (chain_non_overlapping _ _ _ H).
    - destruct H as [a [_ [H _]]].
      split; [exact (chain_pairs _ _ _ H)|].
      exact (chain_non_overlapping _ _ _ H).
    - split; [exact (chain_pairs _ _ _ H)|].
      exact (chain_non_overlapping _ _ _ H). }
  split.
  - intros c Hr. apply G. exact (proj2 (reaches_keeps_order ts p c Hnan Hr)).
  - intros fuel Hf.
    destruct (scan_of_numbers_returns ts p fuel Hnan Hf)
      as [self' [Hs [_ Hord]]].
    exists self'. split; [exact Hs|]. exact (G (Return, self') Hord).
Qed.

Lemma ordering_on_numbers_witness :
  exists self',
    scan 9 [of_Z 1; dec 15 10] (dec 2 10) = Some (Ok self') /\
    Forall (fun pr => exists a b, pr = [a; b] /\ (a < b)%nat)
      (registered_pairs self') /\
    non_overlapping (registered_pairs self').
Proof.
  apply (proj2 (ordering_on_numbers [of_Z 1; dec 15 10] (dec 2 10)
                  ltac:(repeat constructor)) 9%nat).
  unfold enough. simpl. lia.
Defined.

(** The registry of a configuration that [inv] holds of. *)
Lemma inv_pairs_pass (ts : list float) (p : float) (c : config) :
  inv ts p c ->
  Forall (fun pr => exists a b, pr = [a; b] /\ (a <= b)%nat /\
                                net_gain ts p a b)
    (registered_pairs (snd c)).
Proof.
  destruct c as [pt self]. intros [_ [_ [H _]]]. exact H.
Qed.

(** C2 does not hold as stated, on real numbers: on the series [1.0, 1.5]
    with penalty 0.2 the scan returns with the pair [[0; 1]] registered,
    while [(1 - p) * series[b] - (1 + p) * series[a]], on the numbers that
    the samples and the penalty stand for, is not above zero for any two
    positions [a] and [b]: the test passes by the rounding of its
    operations. *)
Lemma rounding_registers_0_1 :
  scan 9 [of_Z 1; dec 15 10] (dec 2 10)
  = Some (Ok (mkOptiTrade [of_Z 1; dec 15 10] (PFloat (dec 2 10)) 1 []
                [[0; 1]]%nat)) /\
  forall a b va vb,
    nth_error [of_Z 1; dec 15 10] a = Some va ->
    nth_error [of_Z 1; dec 15 10] b = Some vb ->
    exists g, exact_gain (dec 2 10) va vb = Some g /\ ~ 0 < g.
Proof.
  split; [vm_compute; reflexivity|].
  intros a b va vb Ha Hb.
  destruct a as [|[|a]]; destruct b as [|[|b]]; simpl in Ha, Hb;
    try discriminate;
    try (destruct b; discriminate); try (destruct a; discriminate);
    injection Ha as <-; injection Hb as <-;
    (eexists; split; [reflexivity|]);
    intros H; vm_compute in H; discriminate H.
Qed.

(** C2, amended. Profitability invariant, on every series of binary64
    samples and with every scalar penalty [p]: at every moment of the scan,
    and so when it returns, every registered entry is a pair [[a; b]] for
    which the code evaluates [(1 - p) * series[b] - (1 + p) * series[a] > 0]
    to true, every operation rounded to binary64; hence nothing is
    registered when no pair of positions passes the test so evaluated.  On
    a series without NaN samples the scan returns, and it is enough that no
    pair with [a < b] passes it. *)
Theorem registered_pairs_pass_test (ts : list float) (p : float) :
  (forall c,
     reaches (start ts p) c ->
     Forall (fun pr => exists a b, pr = [a; b] /\ net_gain ts p a b)
       (registered_pairs (snd c)) /\
     ((forall a b, (a <= b)%nat -> ~ net_gain ts p a b) ->
      registered_pairs (snd c) = [])) /\
  (forall fuel self',
     scan fuel ts p = Some (Ok self') ->
     Forall (fun pr => exists a b, pr = [a; b] /\ net_gain ts p a b)
       (registered_pairs self') /\
     ((forall a b, (a <= b)%nat -> ~ net_gain ts p a b) ->
      registered_pairs self' = [])) /\
  (no_nan ts ->
   forall fuel, (enough ts <= fuel)%nat ->
     exists self',
       scan fuel ts p = Some (Ok self') /\
       Forall (fun pr => exists a b, pr = [a; b] /\ net_gain ts p a b)
         (registered_pairs self') /\
       ((forall a b, (a < b)%nat -> ~ net_gain ts p a b) ->
        registered_pairs self' = [])).
Proof.
  assert (G : forall c, inv ts p c ->
              Forall (fun pr => exists a b, pr = [a; b] /\ net_gain ts p a b)
                (registered_pairs (snd c)) /\
              ((forall a b, (a <= b)%nat -> ~ net_gain ts p a b) ->
               registered_pairs (snd c) = [])).
  { intros c Hinv. pose proof (inv_pairs_pass ts p c Hinv) as H. split.
    - eapply Forall_impl; [|exact H].
      intros pr [a [b [E [_ Hg]]]]. eauto.
    - intros Hno. destruct (registered_pairs (snd c)) as [|pr r];
        [reflexivity|].
      inversion H as [|? ? [a [b [_ [Hle Hg]]]] _]. elim (Hno a b Hle Hg). }
  split; [|split].
  - intros c Hr. apply G. exact (reaches_keeps_inv ts p c Hr).
  - intros fuel self' Hs. apply (G (Return, self')).
    apply reaches_keeps_inv. apply (run_reaches_return fuel). exact Hs.
  - intros Hnan fuel Hf.
    destruct (scan_of_numbers_returns ts p fuel Hnan Hf)
      as [self' [Hs [Hinv Hord]]].
    exists self'. split; [exact Hs|].
    destruct (G (Return, self') Hinv) as [H1 _]. split; [exact H1|].
    intros Hno. simpl in Hord. apply chain_pairs in Hord. simpl in H1.
    destruct (registered_pairs self') as [|pr r]; [reflexivity|].
    inversion H1 as [|? ? [a [b [E Hg]]] _].
    inversion Hord as [|? ? [a' [b' [E' Hlt]]] _].
    rewrite E in E'. injection E' as <- <-. elim (Hno a b Hlt Hg).
Qed.

(** On [1, 3, 1] with penalty 0.5 no pair of positions passes the test. *)
Lemma peak_no_net_gain :
  forall a b, (a < b)%nat -> ~ net_gain [of_Z 1; of_Z 3; of_Z 1] (dec 1 2) a b.
Proof.
  intros a b Hlt [va [vb [Ha [Hb Hg]]]].
  destruct a as [|[|[|a]]]; destruct b as [|[|[|b]]]; try lia;
    simpl in Ha, Hb; try discriminate;
    try (destruct b; discriminate); try (destruct a; discriminate);
    injection Ha as <-; injection Hb as <-; vm_compute in Hg; discriminate.
Qed.

Lemma registered_pairs_pass_test_witness :
  (exists self',
     scan 12 [of_Z 1; of_Z 3; of_Z 1] (dec 1 2) = Some (Ok self') /\
     registered_pairs self' = []) /\
  Forall (fun pr => exists a b,
            pr = [a; b] /\ net_gain [of_Z 1; dec 15 10] (dec 2 10) a b)
    [[0; 1]]%nat.
Proof.
  destruct (registered_pairs_pass_test [of_Z 1; of_Z 3; of_Z 1] (dec 1 2))
    as [_ [_ H3]].
  destruct (registered_pairs_pass_test [of_Z 1; dec 15 10] (dec 2 10))
    as [_ [H2 _]].
  split.
  - destruct (H3 ltac:(repeat constructor) 12%nat) as [s [Hs [_ Hno]]].
    + unfold enough. simpl. lia.
    + exists s. split; [exact Hs|]. apply Hno. exact peak_no_net_gain.
  - apply (H2 9%nat (mkOptiTrade [of_Z 1; dec 15 10] (PFloat (dec 2 10)) 1 []
                       [[0; 1]]%nat)).
    vm_compute. reflexivity.
Defined.

(** The branch that reduces the opting in value, in any state: the cursor
    does not move backward, and the new opting in position is the new
    cursor. *)
Lemma reduce_opt_in_not_backward (self self' : OptiTrade) :
  reduce_opt_in self = Ok self' ->
  (position self <= position self')%nat /\
  hd_error (tmp self') = Some (position self').
Proof.
  unfold reduce_opt_in, find_smaller.
  destruct (find_smaller_from_stops (tseries self) (position self))
    as [r [-> [Hle _]]].
  cbn [bind set_position tmp position].
  destruct (tmp self) as [|a [|b t]]; simpl; try discriminate.
  intros H. injection H as <-. simpl. auto.
Qed.

(** Two configurations that lead to each other never lead to the return. *)
Lemma cycle_never_returns (c0 c1 : config) :
  fst c0 <> Return -> fst c1 <> Return ->
  step c0 = Ok c1 -> step c1 = Ok c0 ->
  forall fuel, run fuel c0 = None /\ run fuel c1 = None.
Proof.
  intros H0 H1 S0 S1. induction fuel as [|fuel [IH0 IH1]].
  - destruct c0 as [[| |] s0], c1 as [[| |] s1]; simpl;
      try (now elim H0); try (now elim H1); auto.
  - rewrite (run_next fuel c0 c1 H0 S0), (run_next fuel c1 c0 H1 S1). auto.
Qed.

(** C3 does not hold as stated: on the series [1.0, NaN] with penalty 0.1
    the scan comes back to its first state after one iteration of the
    outer loop, and never returns; on [5.0, NaN, 1.0, 6.0] with penalty
    0.0025 the iteration of the inner loop that reduces the opting in value
    leaves the cursor at 0 and stays in the loop. *)
Lemma nan_series_never_returns :
  ~ (exists fuel r, scan fuel [of_Z 1; nan] (dec 1 10) = Some r) /\
  reaches (start [of_Z 5; nan; of_Z 1; of_Z 6] (dec 25 10000))
    (InnerHead,
     mkOptiTrade [of_Z 5; nan; of_Z 1; of_Z 6] (PFloat (dec 25 10000)) 0
       [0%nat] []) /\
  step (InnerHead,
        mkOptiTrade [of_Z 5; nan; of_Z 1; of_Z 6] (PFloat (dec 25 10000)) 0
          [0%nat] [])
  = Ok (InnerHead,
        mkOptiTrade [of_Z 5; nan; of_Z 1; of_Z 6] (PFloat (dec 25 10000)) 0
          [0%nat] []).
Proof.
  split; [|split].
  - intros [fuel [r Hr]]. unfold scan, __init__, find_optimal_pairs in Hr.
    destruct (cycle_never_returns
                (OuterHead,
                 mkOptiTrade [of_Z 1; nan] (PFloat (dec 1 10)) 0 [] [])
                (InnerHead,
                 mkOptiTrade [of_Z 1; nan] (PFloat (dec 1 10)) 0 [0%nat] [])
                OuterHead_not_Return InnerHead_not_Return) with (fuel := fuel)
      as [H _].
    + vm_compute. reflexivity.
    + vm_compute. reflexivity.
    + congruence.
  - eapply reaches_next; [apply reaches_here|]. vm_compute. reflexivity.
  - vm_compute. reflexivity.
Qed.

(** C3, amended. Termination and progress on a series without NaN
    samples, with any scalar penalty: the scan returns within [3 * N + 3]
    transitions between loop heads; every iteration of the inner loop that
    stays in the loop moves the cursor strictly forward, and over it the
    opting in position in the buffer does not decrease; no transition moves
    the cursor backward.  On every series the branch that reduces the
    opting in value does not move the cursor backward. *)
Theorem scan_of_numbers_terminates (ts : list float) (p : float) :
  (no_nan ts ->
   forall fuel, (enough ts <= fuel)%nat ->
     exists self', scan fuel ts p = Some (Ok self')) /\
  (no_nan ts ->
   forall self self',
     reaches (start ts p) (InnerHead, self) ->
     step (InnerHead, self) = Ok (InnerHead, self') ->
     (position self < position self')%nat /\
     exists a a', tmp self = [a] /\ tmp self' = [a'] /\ (a <= a')%nat) /\
  (forall c c',
     reaches (start ts p) c -> step c = Ok c' ->
     (position (snd c) <= position (snd c'))%nat) /\
  (forall self self',
     reduce_opt_in self = Ok self' ->
     (position self <= position self')%nat /\
     hd_error (tmp self') = Some (position self')).
Proof.
  split; [|split; [|split]].
  - intros Hnan fuel Hf.
    destruct (scan_of_numbers_returns ts p fuel Hnan Hf) as [self' [Hs _]].
    eauto.
  - intros Hnan self self' Hr Hs.
    destruct (reaches_keeps_order ts p _ Hnan Hr) as [Hinv Hord].
    exact (proj2 (proj2 (step_keeps_order ts p _ _ Hnan Hinv Hord Hs))
             eq_refl eq_refl).
  - intros c c' Hr Hs.
    destruct (step_keeps_inv ts p c (reaches_keeps_inv ts p c Hr))
      as [c1 [Hs1 [_ Hle]]].
    rewrite Hs in Hs1. injection Hs1 as <-. exact Hle.
  - exact reduce_opt_in_not_backward.
Qed.

Lemma scan_of_numbers_terminates_witness :
  (exists self', scan 9 [of_Z 1; dec 15 10] (dec 2 10) = Some (Ok self')) /\
  lt (position (mkOptiTrade [of_Z 1; of_Z 3; of_Z 2; of_Z 4] (PFloat (dec 1 2))
                  0 [0%nat] []))
     (position (mkOptiTrade [of_Z 1; of_Z 3; of_Z 2; of_Z 4] (PFloat (dec 1 2))
                  3 [0%nat] [])) /\
  le (position (snd (start [of_Z 1; dec 15 10] (dec 2 10))))
     (position (snd (InnerHead,
                     mkOptiTrade [of_Z 1; dec 15 10] (PFloat (dec 2 10)) 0
                       [0%nat] []))) /\
  le (position (mkOptiTrade [of_Z 2; of_Z 1] (PFloat zero) 0 [0; 0]%nat []))
     (position (mkOptiTrade [of_Z 2; of_Z 1] (PFloat zero) 1 [1%nat] [])).
Proof.
  split; [|split; [|split]].
  - apply (proj1 (scan_of_numbers_terminates [of_Z 1; dec 15 10] (dec 2 10))
             ltac:(repeat constructor) 9%nat).
    unfold enough. simpl. lia.
  - apply (proj1 (proj2 (scan_of_numbers_terminates
                           [of_Z 1; of_Z 3; of_Z 2; of_Z 4] (dec 1 2)))
             ltac:(repeat constructor)
             (mkOptiTrade [of_Z 1; of_Z 3; of_Z 2; of_Z 4] (PFloat (dec 1 2))
                0 [0%nat] [])
             (mkOptiTrade [of_Z 1; of_Z 3; of_Z 2; of_Z 4] (PFloat (dec 1 2))
                3 [0%nat] [])).
    + eapply reaches_next; [apply reaches_here|]. vm_compute. reflexivity.
    + vm_compute. reflexivity.
  - apply (proj1 (proj2 (proj2 (scan_of_numbers_terminates
                                  [of_Z 1; dec 15 10] (dec 2 10))))
             (start [of_Z 1; dec 15 10] (dec 2 10))
             (InnerHead,
              mkOptiTrade [of_Z 1; dec 15 10] (PFloat (dec 2 10)) 0
                [0%nat] [])).
    + apply reaches_here.
    + vm_compute. reflexivity.
  - apply (proj2 (proj2 (proj2 (scan_of_numbers_terminates [] zero)))
             (mkOptiTrade [of_Z 2; of_Z 1] (PFloat zero) 0 [0; 0]%nat [])
             (mkOptiTrade [of_Z 2; of_Z 1] (PFloat zero) 1 [1%nat] [])).
    vm_compute. reflexivity.
Defined.




(** The decision point of a strictly increasing series is its last
    position. *)
Lemma find_smaller_neg_increasing (ts : list float) :
  strictly_increasing ts -> (1 <= length ts)%nat ->
  find_smaller_from (neg ts) 0 = Ok (length ts - 1)%nat.
Proof.
  intros Hinc Hlen.
  destruct (find_smaller_from_stops (neg ts) 0)
    as [dp [Hdp [_ [Hin [Hstop _]]]]].
  rewrite length_opp in Hin, Hstop. rewrite Hdp. f_equal.
  destruct (Nat.lt_ge_cases (dp + 1) (length ts)) as [Hlt | Hge].
  - exfalso. destruct (Hstop Hlt) as [x [y [Hx [Hy Hge]]]].
    destruct (Hinc dp ltac:(lia)) as [x' [y' [Hx' [Hy' Hgt]]]].
    rewrite nth_error_opp in Hx, Hy. rewrite Hx' in Hx. rewrite Hy' in Hy.
    simpl in Hx, Hy. injection Hx as <-. injection Hy as <-.
    rewrite ge_opp in Hge. apply gt_ge in Hgt. congruence.
  - assert (dp < length ts)%nat by (apply Hin; lia). lia.
Qed.

(** C8 does not hold as stated, on real numbers: the series [1.0, 1.5] is
    strictly increasing, [(1 - p) * series[1] - (1 + p) * series[0]] with
    the penalty 0.2 is below zero on the numbers that the samples and the
    penalty stand for, and the scan registers the pair [[0; 1]]. *)
Lemma increasing_series_rounding :
  strictly_increasing [of_Z 1; dec 15 10] /\
  (exists g,
     exact_gain (dec 2 10) (of_Z 1) (dec 15 10) = Some g /\ g < 0) /\
  exists self',
    scan 9 [of_Z 1; dec 15 10] (dec 2 10) = Some (Ok self') /\
    registered_pairs self' = [[0; 1]]%nat.
Proof.
  split; [|split].
  - intros [|i] Hi; simpl in Hi; try lia.
    exists (of_Z 1), (dec 15 10). repeat split.
  - eexists. split; [reflexivity|]. vm_compute. reflexivity.
  - eexists. split; [vm_compute; reflexivity|]. reflexivity.
Qed.

(** C8, amended. On a strictly increasing series of binary64 samples of
    length [N >= 2] the scan registers the one pair [[0; N-1]] when the
    code evaluates [(1 - p) * series[N-1] - (1 + p) * series[0] > 0] to
    true, every operation rounded to binary64, and no pair otherwise. *)
Theorem increasing_numbers_one_pair (ts : list float) (p : float)
  (fuel : nat) :
  strictly_increasing ts -> (2 <= length ts)%nat -> (enough ts <= fuel)%nat ->
  exists self',
    scan fuel ts p = Some (Ok self') /\
    (net_gain ts p 0 (length ts - 1) ->
     registered_pairs self' = [[0%nat; (length ts - 1)%nat]]) /\
    (~ net_gain ts p 0 (length ts - 1) -> registered_pairs self' = []).
Proof.
  intros Hinc Hlen Hf. unfold enough in Hf.
  destruct fuel as [|[|[|fuel]]]; try lia. clear Hf.
  unfold scan, __init__, find_optimal_pairs.
  (* the outer loop opts in at position 0 *)
  assert (H1 : step (OuterHead, mkOptiTrade ts (PFloat p) 0 [] [])
               = Ok (InnerHead, mkOptiTrade ts (PFloat p) 0 [0%nat] [])).
  { cbn [step].
    replace (before_last _) with true
      by (symmetry; apply before_last_yes; simpl; lia).
    unfold outer_body, find_smaller. cbn [tseries position].
    rewrite (find_smaller_from_rests ts 0)
      by (apply rises_stops; apply Hinc; lia).
    reflexivity. }
  rewrite (run_next _ (OuterHead, _) _ OuterHead_not_Return H1).
  (* the decision point is the last position *)
  pose proof (find_smaller_neg_increasing ts Hinc ltac:(lia)) as Hdp.
  set (dp := (length ts - 1)%nat) in *.
  destruct (getitem_in ts 0) as [va [_ Hva]]; [lia|].
  set (self1 := mkOptiTrade ts (PFloat p) dp [0%nat; dp] []).
  assert (Hin : (position self1 < length (tseries self1))%nat)
    by (simpl; lia).
  destruct (getitem_in _ _ Hin) as [vd [_ Hvd]].
  destruct (find_next_larger_found self1 Hin)
    as [Hnone | [nl [? [? [_ [Hnl _]]]]]]; [|simpl in Hnl; lia].
  pose proof (net_positive_value self1 p va vd 0 dp [] eq_refl eq_refl
                Hva Hvd) as Hnp.
  assert (H2 : exists self2,
             step (InnerHead, mkOptiTrade ts (PFloat p) 0 [0%nat] [])
             = Ok (OuterHead, self2) /\
             tseries self2 = ts /\ position self2 = dp /\
             registered_pairs self2 =
               if gain_test p va vd then [[0%nat; dp]] else []).
  { cbn [step].
    replace (before_last _) with true
      by (symmetry; apply before_last_yes; simpl; lia).
    unfold inner_body, find_smaller. cbn [tseries position].
    rewrite Hdp. cbn [bind].
    unfold set_tmp, set_position.
    cbn [tmp tseries penalty position registered_pairs app].
    change (mkOptiTrade ts (PFloat p) dp [0%nat; dp] []) with self1.
    rewrite Hnone. cbn [bind]. rewrite Hnp. cbn [bind].
    destruct (gain_test p va vd); cbn [bind]; eexists; split;
      try reflexivity; repeat split. }
  destruct H2 as [self2 [H2 [Hts2 [Hpos2 Hrp2]]]].
  rewrite (run_next _ (InnerHead, _) _ InnerHead_not_Return H2).
  (* the outer loop is over *)
  assert (H3 : step (OuterHead, self2) = Ok (Return, self2)).
  { cbn [step].
    replace (before_last self2) with false; [reflexivity|].
    symmetry. apply before_last_no. rewrite Hts2, Hpos2. unfold dp. lia. }
  rewrite (run_next _ (OuterHead, _) _ OuterHead_not_Return H3).
  exists self2. split; [destruct fuel; reflexivity|].
  rewrite Hrp2. simpl in Hvd.
  destruct (gain_test p va vd) eqn:Hgt.
  - split; [reflexivity|]. intros Hno. exfalso. apply Hno.
    exists va, vd. auto.
  - split; [|reflexivity]. intros [va' [vd' [Ha' [Hd' Hg]]]]. exfalso.
    rewrite Hva in Ha'. rewrite Hvd in Hd'.
    injection Ha' as <-. injection Hd' as <-. congruence.
Qed.

Lemma increasing_numbers_one_pair_witness :
  exists self',
    scan 9 [of_Z 1; dec 15 10] (dec 2 10) = Some (Ok self') /\
    registered_pairs self' = [[0%nat; 1%nat]].
Proof.
  destruct (increasing_numbers_one_pair [of_Z 1; dec 15 10] (dec 2 10) 9)
    as [s [H1 [H2 _]]].
  - intros [|i] Hi; simpl in Hi; try lia.
    exists (of_Z 1), (dec 15 10). repeat split.
  - simpl. lia.
  - unfold enough. simpl. lia.
  - exists s. split; [exact H1|]. apply H2.
    exists (of_Z 1), (dec 15 10). repeat split.
Defined.

(** Scenario A, on binary64 samples as well: the scan registers the pairs
    [[1; 5]] and [[6; 7]] and leaves the last position in the buffer. *)
Example scenario_A_on_binary64 :
  scan 30
    [dec 594 100; dec 589 100; dec 597 100; of_Z 6; dec 598 100; dec 607 100;
     dec 588 100; dec 598 100; dec 59 10] (dec 25 10000)
  = Some (Ok (mkOptiTrade
                [dec 594 100; dec 589 100; dec 597 100; of_Z 6; dec 598 100;
                 dec 607 100; dec 588 100; dec 598 100; dec 59 10]
                (PFloat (dec 25 10000)) 8 [8%nat] [[1; 5]; [6; 7]]%nat)).
Proof. vm_compute. reflexivity. Qed.

End Float64Facts.
